(** * Performance model of the cva6: the hazard and prediction trackers

    A shallow embedding of [perf-model/cycle_count.py] (the instruction queue
    length counter [IqLen], the return address stack [Ras], the branch
    history table [Bht], the functional unit tracker [FusBusy], the timed
    part filter and the statistics printer) and of the guard of
    [perf-model/compute_accuracy.py], with the properties the specification
    states about them.

    Python integers are unbounded, so they are [Z]; [&], [>>], [<<] and [%]
    are [Z.land], [Z.shiftr], [Z.shiftl] and [Z.modulo] (floor semantics,
    as in Python when the modulus is positive).  A Python exception is a
    [Raise] in the [result] monad below. *)

From Stdlib Require Import ZArith Lia Bool List String Ascii QArith.
From stdpp Require Import base tactics option list numbers strings.

Local Open Scope Z_scope.

(** ** Exceptions *)

Inductive exn : Set := IndexError | ZeroDivisionError | AssertionError.

Inductive result (A : Type) : Type :=
| Ok (a : A)
| Raise (e : exn).
Arguments Ok {A} a.
Arguments Raise {A} e.

Definition rbind {A B : Type} (r : result A) (k : A -> result B) : result B :=
  match r with
  | Ok a => k a
  | Raise e => Raise e
  end.

Notation "'let*' x ':=' r 'in' k" := (rbind r (fun x => k))
  (at level 10, x name, r at level 100, k at level 200).

(** ** Instructions *)

(** The attributes [Instruction.__init__] stores.  [address] is
    [int(address, base=16)].  [cycle] is the fourth group of [Model.re_instr],
    a non-empty string of decimal digits: it is kept as the number it
    denotes, so that [int(cycle)] is [Z.of_N].  The event list plays no role
    in what follows and is left out. *)
Record Instruction : Type := mkInstruction {
  line : string;
  address : Z;
  hex_code : string;
  cycle : N;
  mnemo : string
}.

(** The module [isa] (the base class [Instr]) is an external collaborator:
    the trackers only use the answers below. *)
Module isa.
Class Instr : Type := {
  size : Instruction -> Z;
  is_compressed : Instruction -> bool;
  is_jump : Instruction -> bool
}.
End isa.

(** [Instruction.next_addr] *)
Definition next_addr `{isa.Instr} (i : Instruction) : Z :=
  address i + isa.size i.

(** ** IqLen: the instruction queue as a size counter *)

Module IqLen.

Record t : Type := mk {
  fetch_size : Z;
  len : Z;
  new_fetch : bool
}.

(** The loop of [__init__]: [while self.fetch_size < fetch_size:
    self.fetch_size <<= 1].  [None] is an exhausted fuel. *)
Fixpoint grow (fuel : nat) (fs req : Z) : option Z :=
  match fuel with
  | O => None
  | S fuel' =>
      if fs <? req then grow fuel' (Z.shiftl fs 1) req else Some fs
  end.

(** [__init__].  The loop starts from 4, and [S (log2_up req)] rounds are
    always enough (see [init_total]). *)
Definition init (req : Z) : option t :=
  match grow (S (Z.to_nat (Z.log2_up req))) 4 req with
  | Some fs => Some {| fetch_size := fs; len := fs; new_fetch := true |}
  | None => None
  end.

Definition fetch (q : t) : t :=
  {| fetch_size := fetch_size q;
     len := len q + fetch_size q;
     new_fetch := true |}.

Definition flush (q : t) : t :=
  {| fetch_size := fetch_size q; len := 0; new_fetch := false |}.

Definition _addr_index (q : t) (addr : Z) : Z :=
  Z.land addr (fetch_size q - 1).

Definition _truncate (q : t) (index : Z) : t :=
  let occupancy := fetch_size q - _addr_index q (len q) in
  let to_remove := index - occupancy in
  let to_remove :=
    if to_remove <? 0 then to_remove + fetch_size q else to_remove in
  {| fetch_size := fetch_size q;
     len := len q - to_remove;
     new_fetch := new_fetch q |}.

Definition jump (q : t) : t :=
  let q :=
    if new_fetch q
    then {| fetch_size := fetch_size q;
            len := len q - fetch_size q;
            new_fetch := false |}
    else q in
  _truncate q 0.

Section WithIsa.
Context `{isa.Instr}.

Definition _is_crossword (q : t) (instr : Instruction) : bool :=
  let is_last := _addr_index q (address instr) =? fetch_size q - 2 in
  is_last && negb (isa.is_compressed instr).

Definition has (q : t) (instr : Instruction) : bool :=
  let length := len q in
  let length :=
    if _is_crossword q instr then length - (fetch_size q - 2)
    else length in
  isa.size instr <=? length.

Definition remove (q : t) (instr : Instruction) : t :=
  let q := {| fetch_size := fetch_size q;
              len := len q - isa.size instr;
              new_fetch := new_fetch q |} in
  let q := _truncate q (_addr_index q (next_addr instr)) in
  if isa.is_jump instr then jump q else q.

(** The operations a client performs on the queue.  [has] only reads;
    [remove] is applied under the client's contract that [has]
    answered true, otherwise the run is not one of the claim's. *)
Inductive op : Type :=
| Fetch
| Flush
| Jump
| Has (instr : Instruction)
| Remove (instr : Instruction).

Definition step (q : t) (o : op) : option t :=
  match o with
  | Fetch => Some (fetch q)
  | Flush => Some (flush q)
  | Jump => Some (jump q)
  | Has _ => Some q
  | Remove instr => if has q instr then Some (remove q instr) else None
  end.

Fixpoint run (q : t) (ops : list op) : option t :=
  match ops with
  | [] => Some q
  | o :: ops' =>
      match step q o with
      | Some q' => run q' ops'
      | None => None
      end
  end.

(** The words of the specification for [has]: offsets within a fetch
    word are remainders modulo the fetch width. *)
Definition has_spec (q : t) (instr : Instruction) : Prop :=
  let straddles :=
    (address instr `mod` fetch_size q =? fetch_size q - 2)
    && negb (isa.is_compressed instr) in
  isa.size instr <=
    len q - (if straddles then fetch_size q - 2 else 0).

(** The words of the specification for the truncate rule. *)
Definition truncate_spec (fetch_width buffered target_index : Z) : Z :=
  let occupancy := fetch_width - buffered `mod` fetch_width in
  let to_remove := target_index - occupancy in
  let to_remove :=
    if to_remove <? 0 then to_remove + fetch_width else to_remove in
  buffered - to_remove.

(** The words of the specification for [jump()]. *)
Definition jump_spec (q : t) : t :=
  let buffered :=
    if new_fetch q then len q - fetch_size q else len q in
  {| fetch_size := fetch_size q;
     len := truncate_spec (fetch_size q) buffered 0;
     new_fetch := if new_fetch q then false else new_fetch q |}.

(** The words of the specification for [remove]. *)
Definition remove_spec (q : t) (instr : Instruction) : t :=
  let buffered := len q - isa.size instr in
  let target_index := next_addr instr `mod` fetch_size q in
  let q' := {| fetch_size := fetch_size q;
               len := truncate_spec (fetch_size q) buffered target_index;
               new_fetch := new_fetch q |} in
  if isa.is_jump instr then jump_spec q' else q'.

End WithIsa.

(** A fetch width is a power of two, at least 4: every constructed queue
    has one, and no operation changes it. *)
Definition wf (q : t) : Prop := exists k, 2 <= k /\ fetch_size q = 2 ^ k.

(** The counter may run into debt (a lost fetch cycle), by at most two
    fetch widths, and by at most one while a fresh fetch is pending. *)
Definition bounded_debt (q : t) : Prop :=
  wf q /\
  - 2 * fetch_size q <= len q /\
  (new_fetch q = true -> - fetch_size q <= len q).

End IqLen.

(** ** Ras: the return address stack *)

Module Ras.

(** [depth] is the attribute, one less than the constructor's argument;
    the top of [stack] is its last element, as in the Python list. *)
Record t : Type := mk {
  depth : Z;
  stack : list Z;
  last_dropped : option Z
}.

Definition init (depth : Z) : t :=
  {| depth := depth - 1; stack := []; last_dropped := None |}.

(** [self.stack.pop(0)] is only reached on a non-empty list. *)
Definition push (r : t) (addr : Z) : t :=
  let stack := stack r ++ [addr] in
  let stack :=
    if depth r <? Z.of_nat (length stack) then tail stack else stack in
  {| depth := depth r; stack := stack; last_dropped := last_dropped r |}.

Definition drop (r : t) : t :=
  if 0 <? Z.of_nat (length (stack r))
  then {| depth := depth r;
          stack := removelast (stack r);
          last_dropped := last (stack r) |}
  else {| depth := depth r; stack := stack r; last_dropped := None |}.

(** [read] leaves the object as it is, so it is a function of the state
    alone. *)
Definition read (r : t) : option Z :=
  match last_dropped r with
  | Some addr => Some addr
  | None => None
  end.

Inductive op : Type :=
| Push (addr : Z)
| Drop
| Read.

Definition step (r : t) (o : op) : t :=
  match o with
  | Push addr => push r addr
  | Drop => drop r
  | Read => r
  end.

Definition run (r : t) (ops : list op) : t := fold_left step ops r.

End Ras.

(** ** Bht: the branch history table *)

Module Bht.

Record Entry : Type := mkEntry {
  valid : bool;
  sat_counter : Z
}.

(** The entries are distinct objects (the comprehension builds one per
    slot), so the table is a list of values updated by index. *)
Record t : Type := mk { contents : list Entry }.

Definition init (entries : Z) : t :=
  {| contents :=
       replicate (Z.to_nat entries) {| valid := false; sat_counter := 0 |} |}.

(** [%] by the length of an empty table raises. *)
Definition _index (b : t) (addr : Z) : result nat :=
  let n := Z.of_nat (length (contents b)) in
  if n =? 0 then Raise ZeroDivisionError
  else Ok (Z.to_nat (Z.shiftr addr 1 `mod` n)).

(** The answer is [Some true] (taken), [Some false] (not taken) or [None]
    (unknown). *)
Definition predict (b : t) (addr : Z) : result (option bool) :=
  let* index := _index b addr in
  match contents b !! index with
  | Some entry =>
      if valid entry then Ok (Some (2 <=? sat_counter entry)) else Ok None
  | None => Raise IndexError
  end.

Definition resolve (b : t) (addr : Z) (taken : bool) : result t :=
  let* index := _index b addr in
  match contents b !! index with
  | Some entry =>
      let counter :=
        if taken
        then (if sat_counter entry <? 3 then sat_counter entry + 1
              else sat_counter entry)
        else (if 0 <? sat_counter entry then sat_counter entry - 1
              else sat_counter entry) in
      Ok {| contents :=
              <[index := {| valid := true; sat_counter := counter |}]>
                (contents b) |}
  | None => Raise IndexError
  end.

(** A history of resolutions, oldest first. *)
Fixpoint resolve_all (b : t) (rs : list (Z * bool)) : result t :=
  match rs with
  | [] => Ok b
  | (addr, taken) :: rs' =>
      let* b' := resolve b addr taken in resolve_all b' rs'
  end.

(** The counter of the slot of [addr], when the table has one. *)
Definition counter_at (b : t) (addr : Z) : result Z :=
  let* index := _index b addr in
  match contents b !! index with
  | Some entry => Ok (sat_counter entry)
  | None => Raise IndexError
  end.

(** The words of the specification for the counter: +1 capped at 3
    towards taken, -1 floored at 0 towards not taken. *)
Definition saturate (taken : bool) (counter : Z) : Z :=
  if taken then Z.min 3 (counter + 1) else Z.max 0 (counter - 1).

(** Was slot [index] ever trained? *)
Definition valid_at (b : t) (index : nat) : bool :=
  match contents b !! index with
  | Some entry => valid entry
  | None => false
  end.

(** The data model's invariant: a non-empty table of counters in [0,3]. *)
Definition wf (b : t) : Prop :=
  contents b ≠ [] /\
  Forall (fun entry => 0 <= sat_counter entry <= 3) (contents b).

End Bht.

(** ** FusBusy: is each functional unit busy *)

Inductive Fu : Set := ALU | MUL | BRANCH | LDU | STU.

Module FusBusy.

Record t : Type := mk {
  has_alu2 : bool;
  alu : bool;
  mul : bool;
  branch : bool;
  ldu : bool;
  stu : bool;
  alu2 : bool;
  issued_mul : bool
}.

Definition init (has_alu2 : bool) : t :=
  {| has_alu2 := has_alu2; alu := false; mul := false; branch := false;
     ldu := false; stu := false; alu2 := false; issued_mul := false |}.

Definition _alu2_ready (f : t) : bool := has_alu2 f && negb (alu2 f).

Definition is_ready (f : t) (fu : Fu) : bool :=
  match fu with
  | ALU => _alu2_ready f || negb (alu f)
  | MUL => negb (mul f)
  | BRANCH => negb (branch f)
  | LDU => negb (ldu f)
  | STU => negb (stu f)
  end.

Definition issue_mul (f : t) : result t :=
  Ok {| has_alu2 := has_alu2 f; alu := alu f; mul := true;
        branch := branch f; ldu := ldu f; stu := stu f; alu2 := alu2 f;
        issued_mul := true |}.

Definition issue_alu (f : t) : result t :=
  if negb (_alu2_ready f)
  then
    if negb (alu f)
    then Ok {| has_alu2 := has_alu2 f; alu := true; mul := mul f;
               branch := true; ldu := ldu f; stu := stu f;
               alu2 := alu2 f; issued_mul := issued_mul f |}
    else Raise AssertionError
  else Ok {| has_alu2 := has_alu2 f; alu := alu f; mul := mul f;
             branch := branch f; ldu := ldu f; stu := stu f;
             alu2 := true; issued_mul := issued_mul f |}.

Definition issue_branch (f : t) : result t :=
  Ok {| has_alu2 := has_alu2 f; alu := true; mul := mul f;
        branch := true; ldu := ldu f; stu := true; alu2 := alu2 f;
        issued_mul := issued_mul f |}.

Definition issue_ldu (f : t) : result t :=
  Ok {| has_alu2 := has_alu2 f; alu := alu f; mul := mul f;
        branch := branch f; ldu := true; stu := true; alu2 := alu2 f;
        issued_mul := issued_mul f |}.

Definition issue_stu (f : t) : result t :=
  Ok {| has_alu2 := has_alu2 f; alu := alu f; mul := mul f;
        branch := branch f; ldu := true; stu := true; alu2 := alu2 f;
        issued_mul := issued_mul f |}.

(** The dispatch table of [issue], on the unit [to_fu] answers. *)
Definition issue (f : t) (fu : Fu) : result t :=
  match fu with
  | ALU => issue_alu f
  | MUL => issue_mul f
  | BRANCH => issue_branch f
  | LDU => issue_ldu f
  | STU => issue_stu f
  end.

Definition cycle (f : t) : t :=
  {| has_alu2 := has_alu2 f; alu := issued_mul f; mul := false;
     branch := issued_mul f; ldu := false; stu := false; alu2 := false;
     issued_mul := false |}.

(** All six units free. *)
Definition all_free (f : t) : Prop :=
  alu f = false /\ mul f = false /\ branch f = false /\
  ldu f = false /\ stu f = false /\ alu2 f = false.

End FusBusy.

(** ** The timed part of a trace *)

(** Python's [needle in hay] on strings. *)
Fixpoint str_in (needle hay : string) : bool :=
  String.prefix needle hay
  || match hay with
     | EmptyString => false
     | String _ hay' => str_in needle hay'
     end.

Definition is_marker (instr : Instruction) : bool :=
  str_in "32951073" (hex_code instr).

(** The loop of [filter_timed_part], with its two variables. *)
Fixpoint filter_loop (all_instructions : list Instruction)
    (accepting : bool) (filtered : list Instruction) : list Instruction :=
  match all_instructions with
  | [] => filtered
  | instr :: rest =>
      if is_marker instr then filter_loop rest (negb accepting) filtered
      else if accepting then filter_loop rest accepting (filtered ++ [instr])
      else filter_loop rest accepting filtered
  end.

Definition filter_timed_part (all_instructions : list Instruction)
    : list Instruction :=
  filter_loop all_instructions false [].

(** What follows the first occurrence of the marker, and what precedes it. *)
Fixpoint after_marker (l : list Instruction) : list Instruction :=
  match l with
  | [] => []
  | instr :: rest => if is_marker instr then rest else after_marker rest
  end.

Fixpoint before_marker (l : list Instruction) : list Instruction :=
  match l with
  | [] => []
  | instr :: rest =>
      if is_marker instr then [] else instr :: before_marker rest
  end.

(** The words of the specification: the instructions strictly between the
    first and the second occurrence of the marker. *)
Definition between_first_two_markers (all_instructions : list Instruction)
    : list Instruction :=
  before_marker (after_marker all_instructions).

(** The number of occurrences of the marker. *)
Definition markers (l : list Instruction) : nat :=
  length (filter (fun instr => is_marker instr = true) l).

(** ** Statistics ([cycle_count.py]) *)

Definition count_cycles (retired : list Instruction) : result Z :=
  match head retired with
  | None => Raise IndexError
  | Some first =>
      match last retired with
      | None => Raise IndexError
      | Some final => Ok (Z.of_N (cycle final) - Z.of_N (cycle first))
      end
  end.

(** What [print_stats] appends to [out.txt]. *)
Inductive out_line : Type :=
| Header (input_file : string)
| CycleNumber (n_cycles : Z)
| CoremarkPerMHz (ratio : Q)
| InstructionNumber (n_instr : Z).

(** The lines written and the exception that ended the call, if any.
    [1000000 / n_cycles] is a true division: it raises on a zero count, after
    the first two lines were printed. *)
Definition print_stats (instructions : list Instruction)
    (input_file : string) : list out_line * option exn :=
  let n_instr := Z.of_nat (length instructions) in
  match count_cycles instructions with
  | Raise e => ([], Some e)
  | Ok n_cycles =>
      if n_cycles =? 0
      then ([Header input_file; CycleNumber n_cycles], Some ZeroDivisionError)
      else ([Header input_file; CycleNumber n_cycles;
             CoremarkPerMHz (inject_Z 1000000 / inject_Z n_cycles)%Q;
             InstructionNumber n_instr], None)
  end.

(** [main], on the instruction queue [load_file] built from the trace. *)
Definition main (instr_queue : list Instruction) (input_file : string)
    : list out_line * option exn :=
  print_stats (filter_timed_part instr_queue) input_file.

(** ** The comparison of two traces ([compute_accuracy.py]) *)

Module compute_accuracy.

Definition compute_deltas (cycles : list Z) : list Z :=
  map (fun i => nth (i + 1) cycles 0 - nth i cycles 0)
      (seq 0 (length cycles - 1)).

Definition compare_deltas (deltas1 deltas2 : list Z) : Z :=
  Z.of_nat
    (length (filter (fun d => d.1 = d.2) (zip deltas1 deltas2))).

Inductive report : Type :=
| NotEnoughInstructions
| MatchingDeltaCount (match_count : Z).

(** [main], on the two lists of cycles parsed from the traces; the plot is
    left out. *)
Definition main (cycles1 cycles2 : list Z) : report :=
  if (Z.of_nat (length cycles1) <? 2) || (Z.of_nat (length cycles2) <? 2)
  then NotEnoughInstructions
  else MatchingDeltaCount
         (compare_deltas (compute_deltas cycles1) (compute_deltas cycles2)).

End compute_accuracy.

(** ** A decoder for concrete instructions *)

(** Modelled from the spec: the decode collaborator [isa.Instr] is not part
    of these sources.  Given an opcode word it answers the byte size (2 or
    4), the compact-encoding flag and whether the instruction redirects
    control flow; the encodings are those of the RISC-V base and C
    extensions.  It only serves to exhibit concrete instructions: every
    general statement below holds for any decoder. *)
Module rv.

Definition hex_digit (c : ascii) : option Z :=
  let code := Z.of_N (N_of_ascii c) in
  if (48 <=? code) && (code <=? 57) then Some (code - 48)
  else if (97 <=? code) && (code <=? 102) then Some (code - 87)
  else None.

Fixpoint hex_digits (acc : Z) (s : string) : option Z :=
  match s with
  | EmptyString => Some acc
  | String c s' =>
      match hex_digit c with
      | Some d => hex_digits (16 * acc + d) s'
      | None => None
      end
  end.

(** [int(hex_code, base=16)] on what the trace pattern captures. *)
Definition hex_value (s : string) : option Z :=
  let digits :=
    match s with
    | String "0" (String "x" rest) => rest
    | _ => s
    end in
  match digits with
  | EmptyString => None
  | _ => hex_digits 0 digits
  end.

Definition word (instr : Instruction) : Z :=
  default 0 (hex_value (hex_code instr)).

Definition bits (w lo n : Z) : Z := Z.land (Z.shiftr w lo) (Z.ones n).

Definition compressed (instr : Instruction) : bool :=
  negb (bits (word instr) 0 2 =? 3).

Definition jumps (instr : Instruction) : bool :=
  let w := word instr in
  if compressed instr
  then
    ((bits w 0 2 =? 1) && ((bits w 13 3 =? 1) || (bits w 13 3 =? 5)))
    || ((bits w 0 2 =? 2) && (bits w 13 3 =? 4)
        && (bits w 2 5 =? 0) && negb (bits w 7 5 =? 0))
  else (bits w 0 7 =? 111) || (bits w 0 7 =? 103).

#[export] Instance decoder : isa.Instr := {|
  isa.size := fun instr => if compressed instr then 2 else 4;
  isa.is_compressed := compressed;
  isa.is_jump := jumps
|}.

(** [j 0x80000000] (jal x0, 0), [addi a0, a0, 1], [c.nop] and the marker
    ([csrw 0x329, a0]) as trace entries. *)
Definition jal_at (addr : Z) : Instruction :=
  mkInstruction "core 0: 0x0000000080000000 (0x0000006f) @ 10 j 0"
                addr "0x0000006f" 10 "j 0".

Definition addi_at (addr : Z) (cyc : N) : Instruction :=
  mkInstruction "" addr "0x00150513" cyc "addi a0, a0, 1".

Definition cnop_at (addr : Z) : Instruction :=
  mkInstruction "" addr "0x0001" 12 "c.nop".

Definition marker_at (addr : Z) (cyc : N) : Instruction :=
  mkInstruction "" addr "0x32951073" cyc "csrw 0x329, a0".

End rv.

(** ** More of the model: the remaining helpers *)

(** [to_signed].  A negative shift count raises [ValueError]: that is the
    [None] below. *)
Definition to_signed (value xlen : Z) : option Z :=
  if xlen - 1 <? 0 then None
  else
    let signed := value in
    Some (if negb (Z.shiftr signed (xlen - 1) =? 0)
          then signed - Z.shiftl 1 xlen
          else signed).

(** The rest of what [Instruction.is_ret] and [Instruction.is_call] ask the
    module [isa]: the base name, the fields [name], [rs1] and [rd], and the
    registers [Reg.ra] and [Reg.t0]. *)
Module fields.
Class Decode : Type := {
  Reg : Type;
  Reg_eq_dec : EqDecision Reg;
  ra : Reg;
  t0 : Reg;
  is_regjump : Instruction -> bool;
  base : Instruction -> string;
  name : Instruction -> string;
  rs1 : Instruction -> Reg;
  rd : Instruction -> Reg
}.
#[global] Existing Instance Reg_eq_dec.
End fields.

Section CallsAndReturns.
Context `{isa.Instr} `{fields.Decode}.

Definition _ret_regs : list fields.Reg := [fields.ra; fields.t0].

Definition is_ret (instr : Instruction) : bool :=
  fields.is_regjump instr
  && bool_decide (fields.rs1 instr ∈ _ret_regs)
  && (isa.is_compressed instr
      || negb (bool_decide (fields.rs1 instr = fields.rd instr))).

Definition is_call (instr : Instruction) : bool :=
  String.eqb (fields.base instr) "C.JAL"
  || (String.eqb (fields.base instr) "C.J[AL]R/C.MV/C.ADD"
      && String.eqb (fields.name instr) "C.JALR")
  || (bool_decide (fields.base instr ∈ ["JAL"; "JALR"])
      && bool_decide (fields.rd instr ∈ _ret_regs)).

(** [Ras.resolve]: the two tests are independent, the drop comes first. *)
Definition Ras_resolve (r : Ras.t) (instr : Instruction) : Ras.t :=
  let r := if is_ret instr then Ras.drop r else r in
  if is_call instr then Ras.push r (next_addr instr) else r.

End CallsAndReturns.



(** ** The cycles between two markers ([compute_accuracy.py]) *)

Module trace_cycles.
Section Parse.

(** [int(line.split('@')[1].split()[0])] inside its [try]: [None] when
    [IndexError] or [ValueError] is caught. *)
Variable cycle_of : string -> option Z.

Definition append_cycle (cycles : list Z) (line : string) : list Z :=
  match cycle_of line with
  | Some cycle => cycles ++ [cycle]
  | None => cycles
  end.

(** The end of an iteration that did not break: [prevline = line], then
    the line is collected when it holds an ['@']. *)
Definition collect (collecting : bool) (cycles : list Z) (line : string)
    : list Z :=
  if collecting && str_in "@" line then append_cycle cycles line
  else cycles.

(** The loop of [parse_trace_cycles_between_markers].  [prevline] is [None]
    until the first iteration has ended: reading it then raises
    [UnboundLocalError], the [None] of the result. *)
Fixpoint parse_loop (marker : string) (lines : list string)
    (prevline : option string) (collecting : bool) (marker_count : Z)
    (cycles : list Z) : option (list Z) :=
  match lines with
  | [] => Some cycles
  | line :: rest =>
      let next collecting marker_count :=
        parse_loop marker rest (Some line) collecting marker_count
                   (collect collecting cycles line) in
      if str_in marker line
      then
        match prevline with
        | None => None
        | Some prev =>
            if negb (str_in marker prev)
            then
              let marker_count := marker_count + 1 in
              if marker_count =? 1 then next true marker_count
              else if marker_count =? 2
                   then Some (append_cycle cycles line)
                   else next collecting marker_count
            else next collecting marker_count
        end
      else next collecting marker_count
  end.

Definition parse_trace_cycles_between_markers (lines : list string)
    (marker : string) : option (list Z) :=
  parse_loop marker lines None false 0 [].

(** A line that does not hold the marker. *)
Definition plain (marker line : string) : Prop :=
  str_in marker line = false.

(** The cycles of the lines a collecting loop keeps. *)
Definition cycles_of (lines : list string) : list Z :=
  foldl (collect true) [] lines.

(** [main] of [compute_accuracy.py], from the lines of the two traces. *)
Definition main (lines1 lines2 : list string) (marker : string)
    : option compute_accuracy.report :=
  match parse_trace_cycles_between_markers lines1 marker with
  | None => None
  | Some cycles1 =>
      match parse_trace_cycles_between_markers lines2 marker with
      | None => None
      | Some cycles2 => Some (compute_accuracy.main cycles1 cycles2)
      end
  end.

End Parse.
End trace_cycles.

(** Modelled from the spec: the fields of the decode collaborator, for
    concrete instructions only, after the RISC-V encodings of [jal],
    [jalr], [c.jr] and [c.jalr]; registers are their numbers. *)
Module rvf.

Definition regjump (instr : Instruction) : bool :=
  let w := rv.word instr in
  if rv.compressed instr
  then (rv.bits w 0 2 =? 2) && (rv.bits w 13 3 =? 4)
       && (rv.bits w 2 5 =? 0) && negb (rv.bits w 7 5 =? 0)
  else rv.bits w 0 7 =? 103.

Definition base_name (instr : Instruction) : string :=
  let w := rv.word instr in
  if rv.compressed instr
  then if regjump instr then "C.J[AL]R/C.MV/C.ADD" else "C.OTHER"
  else if rv.bits w 0 7 =? 103 then "JALR"
       else if rv.bits w 0 7 =? 111 then "JAL" else "OTHER".

Definition field_name (instr : Instruction) : string :=
  if rv.compressed instr && regjump instr
  then if rv.bits (rv.word instr) 12 1 =? 1 then "C.JALR" else "C.JR"
  else base_name instr.

Definition reg_rs1 (instr : Instruction) : Z :=
  if rv.compressed instr then rv.bits (rv.word instr) 7 5
  else rv.bits (rv.word instr) 15 5.

Definition reg_rd (instr : Instruction) : Z :=
  if rv.compressed instr
  then (if field_name instr =? "C.JALR" then 1 else 0)%string
  else rv.bits (rv.word instr) 7 5.

#[export] Instance decoder : fields.Decode := {|
  fields.Reg := Z;
  fields.Reg_eq_dec := _;
  fields.ra := 1;
  fields.t0 := 5;
  fields.is_regjump := regjump;
  fields.base := base_name;
  fields.name := field_name;
  fields.rs1 := reg_rs1;
  fields.rd := reg_rd
|}.

(** [jalr ra, 0(t0)]: a return through [t0] that links into [ra]. *)
Definition jalr_ra_t0 (addr : Z) : Instruction :=
  mkInstruction "" addr "0x000280e7" 20 "jalr ra, 0(t0)".

End rvf.

(** * Properties *)

(** ** The instruction queue *)

Section IqLenFacts.
Context `{isa.Instr}.

Lemma addr_index_mod (q : IqLen.t) (addr : Z) :
  IqLen.wf q -> IqLen._addr_index q addr = addr `mod` IqLen.fetch_size q.
Proof.
  intros (k & Hk & Hfs). unfold IqLen._addr_index. rewrite Hfs.
  replace (2 ^ k - 1) with (Z.ones k) by (rewrite Z.ones_equiv; lia).
  apply Z.land_ones. lia.
Qed.

Lemma wf_fetch_size_pos (q : IqLen.t) :
  IqLen.wf q -> 4 <= IqLen.fetch_size q.
Proof.
  intros (k & Hk & ->). change 4 with (2 ^ 2).
  apply Z.pow_le_mono_r; lia.
Qed.

Lemma wf_same_width (q q' : IqLen.t) :
  IqLen.fetch_size q' = IqLen.fetch_size q -> IqLen.wf q -> IqLen.wf q'.
Proof. intros E (k & Hk & Hfs). exists k. split; [done | congruence]. Qed.

Lemma truncate_refines (q : IqLen.t) (index : Z) :
  IqLen.wf q ->
  IqLen._truncate q index =
  {| IqLen.fetch_size := IqLen.fetch_size q;
     IqLen.len :=
       IqLen.truncate_spec (IqLen.fetch_size q) (IqLen.len q) index;
     IqLen.new_fetch := IqLen.new_fetch q |}.
Proof.
  intros Hwf. unfold IqLen._truncate, IqLen.truncate_spec.
  by rewrite (addr_index_mod q _ Hwf).
Qed.

Lemma jump_refines (q : IqLen.t) :
  IqLen.wf q -> IqLen.jump q = IqLen.jump_spec q.
Proof.
  intros Hwf. unfold IqLen.jump, IqLen.jump_spec.
  destruct (IqLen.new_fetch q) eqn:Hnf.
  - rewrite truncate_refines; [done |].
    by apply (wf_same_width q).
  - rewrite truncate_refines; [| done]. by rewrite Hnf.
Qed.

(** The loop of the constructor: from a power of two, enough fuel reaches
    the first power of two that is not below the request. *)
Lemma grow_spec (req : Z) (fuel : nat) :
  forall k, 0 <= k -> req <= 2 ^ (k + Z.of_nat fuel - 1) -> fuel <> O ->
  exists m, k <= m /\ IqLen.grow fuel (2 ^ k) req = Some (2 ^ m) /\
            req <= 2 ^ m /\ (m = k \/ 2 ^ (m - 1) < req).
Proof.
  induction fuel as [| fuel IH]; intros k Hk Hreq Hfuel; [done |].
  simpl. destruct (Z.ltb_spec (2 ^ k) req) as [Hlt | Hge].
  - assert (fuel <> O) as Hfuel'.
    { intros ->. replace (k + Z.of_nat 1 - 1) with k in Hreq by lia. lia. }
    rewrite Z.shiftl_mul_pow2 by lia.
    replace (2 ^ k * 2 ^ 1) with (2 ^ (k + 1))
      by (rewrite Z.pow_add_r by lia; lia).
    destruct (IH (k + 1)) as (m & Hm & Hgrow & Hle & Hmin);
      [lia | | done |].
    { replace (k + 1 + Z.of_nat fuel - 1) with (k + Z.of_nat (S fuel) - 1)
        by lia. done. }
    exists m. repeat split; [lia | done | done |].
    right. destruct Hmin as [-> | Hmin]; [| done].
    by replace (k + 1 - 1) with k by lia.
  - exists k. repeat split; [lia | done | by left].
Qed.

Lemma request_below_fuel (req : Z) :
  req <= 2 ^ (2 + Z.of_nat (S (Z.to_nat (Z.log2_up req))) - 1).
Proof.
  pose proof (Z.log2_up_nonneg req) as Hn.
  replace (2 + Z.of_nat (S (Z.to_nat (Z.log2_up req))) - 1)
    with (Z.log2_up req + 2) by lia.
  assert (2 ^ Z.log2_up req <= 2 ^ (Z.log2_up req + 2)) as Hmono
    by (apply Z.pow_le_mono_r; lia).
  destruct (Z.le_gt_cases req 1) as [Hsmall | Hbig].
  - assert (0 < 2 ^ Z.log2_up req) by (apply Z.pow_pos_nonneg; lia). lia.
  - pose proof (Z.log2_up_spec req Hbig). lia.
Qed.

(** The constructor always returns, with a well-formed queue. *)
Lemma init_spec (req : Z) :
  exists q k,
    IqLen.init req = Some q /\ 2 <= k /\
    q = {| IqLen.fetch_size := 2 ^ k; IqLen.len := 2 ^ k;
           IqLen.new_fetch := true |} /\
    req <= 2 ^ k /\ (k = 2 \/ 2 ^ (k - 1) < req).
Proof.
  destruct (grow_spec req (S (Z.to_nat (Z.log2_up req))) 2)
    as (m & Hm & Hgrow & Hle & Hmin);
    [lia | apply request_below_fuel | done |].
  unfold IqLen.init. change 4 with (2 ^ 2). rewrite Hgrow.
  eexists _, m. repeat split; [done | done | done].
Qed.

Lemma init_total (req : Z) : exists q, IqLen.init req = Some q.
Proof. destruct (init_spec req) as (q & k & Hq & _). by exists q. Qed.

Lemma init_wf (req : Z) (q : IqLen.t) :
  IqLen.init req = Some q -> IqLen.wf q.
Proof.
  destruct (init_spec req) as (q' & k & Hq & Hk & -> & _).
  rewrite Hq. intros [= <-]. by exists k.
Qed.

End IqLenFacts.

Section IqLenClaims.
Context `{isa.Instr}.

(** C1.  [has(i)] is true if and only if the buffered byte count, reduced
    by [fetch_width - 2] exactly when the offset of [i]'s address within a
    fetch word is [fetch_width - 2] and [i] is not compact-encoded, is at
    least the size of [i]. *)
Theorem C1_has_iff (q : IqLen.t) (i : Instruction) :
  IqLen.wf q -> (IqLen.has q i = true <-> IqLen.has_spec q i).
Proof.
  intros Hwf. unfold IqLen.has, IqLen.has_spec, IqLen._is_crossword.
  rewrite (addr_index_mod q _ Hwf). cbv zeta.
  destruct ((address i `mod` IqLen.fetch_size q =? IqLen.fetch_size q - 2)
            && negb (isa.is_compressed i));
    rewrite Z.leb_le; lia.
Qed.

(** C2.  [remove(i)] subtracts the size of [i], truncates by the rule
    (occupancy = fetch_width - buffered mod fetch_width; to_remove =
    offset of the next address - occupancy, plus fetch_width when
    negative) and, when [i] redirects control flow, applies the discard
    of [jump()]. *)
Theorem C2_remove_refines (q : IqLen.t) (i : Instruction) :
  IqLen.wf q -> IqLen.remove q i = IqLen.remove_spec q i.
Proof.
  intros Hwf. unfold IqLen.remove, IqLen.remove_spec. cbv zeta.
  set (q1 := {| IqLen.fetch_size := IqLen.fetch_size q;
                IqLen.len := IqLen.len q - isa.size i;
                IqLen.new_fetch := IqLen.new_fetch q |}).
  assert (IqLen.wf q1) as Hwf1 by (by apply (wf_same_width q)).
  rewrite (truncate_refines q1 _ Hwf1), (addr_index_mod q1 _ Hwf1).
  simpl. destruct (isa.is_jump i); [| done].
  apply jump_refines. by apply (wf_same_width q).
Qed.

(** C10.  A fresh queue holds one full fetch width, the smallest power of
    two that is at least the requested size and at least 4, with a fresh
    fetch pending: it already has any word-aligned instruction that is
    not longer than the fetch width. *)
Theorem C10_init_nonempty (req : Z) :
  exists q k,
    IqLen.init req = Some q /\
    IqLen.len q = IqLen.fetch_size q /\
    IqLen.new_fetch q = true /\
    IqLen.fetch_size q = 2 ^ k /\ 2 <= k /\ req <= 2 ^ k /\
    (forall j, 2 <= j -> req <= 2 ^ j -> 2 ^ k <= 2 ^ j) /\
    (forall i, address i `mod` IqLen.fetch_size q = 0 ->
               isa.size i <= IqLen.fetch_size q ->
               IqLen.has q i = true).
Proof.
  destruct (init_spec req) as (q & k & Hq & Hk & -> & Hle & Hmin).
  eexists _, k. split; [exact Hq |]. simpl. repeat split; try done.
  - intros j Hj Hreq. apply Z.pow_le_mono_r; [lia |].
    destruct Hmin as [-> | Hmin]; [done |].
    assert (k - 1 < j); [| lia].
    apply (Z.pow_lt_mono_r_iff 2); lia.
  - intros i Haligned Hsize.
    assert (IqLen.wf (IqLen.mk (2 ^ k) (2 ^ k) true)) as Hwf by (by exists k).
    unfold IqLen.has, IqLen._is_crossword.
    rewrite (addr_index_mod _ _ Hwf). simpl. rewrite Haligned.
    pose proof (wf_fetch_size_pos _ Hwf) as Hfs. simpl in Hfs.
    destruct (Z.eqb_spec 0 (2 ^ k - 2)); [lia |].
    simpl. simpl in Hsize. apply Z.leb_le. lia.
Qed.

End IqLenClaims.

Section IqLenDebt.
Context `{isa.Instr}.

Lemma truncate_len_bounds (q : IqLen.t) (index : Z) :
  IqLen.wf q -> 0 <= index < IqLen.fetch_size q ->
  IqLen.len q - IqLen.fetch_size q < IqLen.len (IqLen._truncate q index)
    <= IqLen.len q.
Proof.
  intros Hwf Hindex. rewrite (truncate_refines q _ Hwf).
  unfold IqLen.truncate_spec. simpl.
  pose proof (wf_fetch_size_pos q Hwf) as Hfs.
  pose proof (Z.mod_pos_bound (IqLen.len q) (IqLen.fetch_size q)) as Hmod.
  destruct (Z.ltb_spec
              (index - (IqLen.fetch_size q
                        - IqLen.len q `mod` IqLen.fetch_size q)) 0); lia.
Qed.

(** With the default index the truncation rounds the counter down to a
    multiple of the fetch width. *)
Lemma truncate_zero (q : IqLen.t) :
  IqLen.wf q ->
  IqLen.len (IqLen._truncate q 0) =
  IqLen.fetch_size q * (IqLen.len q / IqLen.fetch_size q).
Proof.
  intros Hwf. rewrite (truncate_refines q _ Hwf).
  unfold IqLen.truncate_spec. simpl.
  pose proof (wf_fetch_size_pos q Hwf) as Hfs.
  pose proof (Z.mod_pos_bound (IqLen.len q) (IqLen.fetch_size q)) as Hmod.
  pose proof (Z.div_mod (IqLen.len q) (IqLen.fetch_size q)) as Hdiv.
  destruct (Z.ltb_spec
              (0 - (IqLen.fetch_size q
                    - IqLen.len q `mod` IqLen.fetch_size q)) 0); lia.
Qed.

Lemma round_down_lower (fs x : Z) :
  0 < fs -> - 2 * fs <= x -> - 2 * fs <= fs * (x / fs).
Proof.
  intros Hfs Hx.
  assert (- 2 <= x / fs) by (apply Z.div_le_lower_bound; lia). nia.
Qed.

Lemma init_bounded_debt (req : Z) (q : IqLen.t) :
  IqLen.init req = Some q -> IqLen.bounded_debt q.
Proof.
  intros Hq. pose proof (init_wf req q Hq) as Hwf.
  pose proof (wf_fetch_size_pos q Hwf) as Hfs.
  destruct (init_spec req) as (q' & k & Hq' & _ & -> & _).
  rewrite Hq in Hq'. injection Hq' as ->.
  split; [done |]. simpl in *. lia.
Qed.

Lemma fetch_bounded_debt (q : IqLen.t) :
  IqLen.bounded_debt q -> IqLen.bounded_debt (IqLen.fetch q).
Proof.
  intros (Hwf & Hlen & Hnf). pose proof (wf_fetch_size_pos q Hwf).
  split; [by apply (wf_same_width q) |]. simpl. lia.
Qed.

Lemma flush_bounded_debt (q : IqLen.t) :
  IqLen.bounded_debt q -> IqLen.bounded_debt (IqLen.flush q).
Proof.
  intros (Hwf & Hlen & Hnf). pose proof (wf_fetch_size_pos q Hwf).
  split; [by apply (wf_same_width q) |]. simpl. split; [lia | done].
Qed.

Lemma jump_bounded_debt (q : IqLen.t) :
  IqLen.bounded_debt q -> IqLen.bounded_debt (IqLen.jump q).
Proof.
  intros (Hwf & Hlen & Hnf). pose proof (wf_fetch_size_pos q Hwf) as Hfs.
  unfold IqLen.jump. destruct (IqLen.new_fetch q) eqn:Hpending.
  - set (q1 := {| IqLen.fetch_size := IqLen.fetch_size q;
                  IqLen.len := IqLen.len q - IqLen.fetch_size q;
                  IqLen.new_fetch := false |}).
    assert (IqLen.wf q1) as Hwf1 by (by apply (wf_same_width q)).
    split; [by apply (wf_same_width q) |].
    rewrite (truncate_zero q1 Hwf1). simpl.
    split; [| done]. apply round_down_lower; lia.
  - split; [by apply (wf_same_width q) |].
    rewrite (truncate_zero q Hwf). simpl. rewrite Hpending.
    split; [| done]. apply round_down_lower; lia.
Qed.

Lemma remove_bounded_debt (q : IqLen.t) (i : Instruction) :
  IqLen.bounded_debt q -> IqLen.has q i = true ->
  IqLen.bounded_debt (IqLen.remove q i).
Proof.
  intros (Hwf & Hlen & Hnf) Hhas.
  pose proof (wf_fetch_size_pos q Hwf) as Hfs.
  assert (isa.size i <= IqLen.len q) as Hsize.
  { unfold IqLen.has in Hhas. apply Z.leb_le in Hhas.
    destruct (IqLen._is_crossword q i); lia. }
  unfold IqLen.remove. cbv zeta.
  set (q1 := {| IqLen.fetch_size := IqLen.fetch_size q;
                IqLen.len := IqLen.len q - isa.size i;
                IqLen.new_fetch := IqLen.new_fetch q |}).
  assert (IqLen.wf q1) as Hwf1 by (by apply (wf_same_width q)).
  set (index := IqLen._addr_index q1 (next_addr i)).
  assert (0 <= index < IqLen.fetch_size q1) as Hindex.
  { unfold index. rewrite (addr_index_mod q1 _ Hwf1).
    apply Z.mod_pos_bound. simpl. lia. }
  pose proof (truncate_len_bounds q1 index Hwf1 Hindex) as Hbounds.
  assert (IqLen.bounded_debt (IqLen._truncate q1 index)) as Hdebt.
  { split; [by apply (wf_same_width q) |]. simpl in *. lia. }
  destruct (isa.is_jump i); [by apply jump_bounded_debt | done].
Qed.

Lemma step_bounded_debt (q q' : IqLen.t) (o : IqLen.op) :
  IqLen.bounded_debt q -> IqLen.step q o = Some q' ->
  IqLen.bounded_debt q'.
Proof.
  intros Hq. destruct o as [| | | i | i]; simpl.
  - intros [= <-]. by apply fetch_bounded_debt.
  - intros [= <-]. by apply flush_bounded_debt.
  - intros [= <-]. by apply jump_bounded_debt.
  - by intros [= <-].
  - destruct (IqLen.has q i) eqn:Hhas; [| done].
    intros [= <-]. by apply remove_bounded_debt.
Qed.

Lemma run_bounded_debt (ops : list IqLen.op) :
  forall q q', IqLen.bounded_debt q -> IqLen.run q ops = Some q' ->
               IqLen.bounded_debt q'.
Proof.
  induction ops as [| o ops IH]; intros q q' Hq; simpl.
  - by intros [= <-].
  - destruct (IqLen.step q o) as [q1 |] eqn:Hstep; [| done].
    apply IH. by apply (step_bounded_debt q q1 o).
Qed.

(** C3 (amended).  From a fresh queue, whatever the operations, with
    [remove] only applied to an instruction the queue has, the counter
    never falls below minus two fetch widths. *)
Theorem C3_len_bounded_below (req : Z) (q0 q : IqLen.t)
    (ops : list IqLen.op) :
  IqLen.init req = Some q0 -> IqLen.run q0 ops = Some q ->
  - 2 * IqLen.fetch_size q <= IqLen.len q.
Proof.
  intros Hinit Hrun.
  destruct (run_bounded_debt ops q0 q) as (_ & Hlen & _);
    [by apply (init_bounded_debt req) | done | done].
Qed.

End IqLenDebt.

(** Concrete instructions are decoded by [rv.decoder]. *)
#[global] Existing Instance rv.decoder.

(** A crossing instruction: a 4-byte jump at offset 6 of an 8-byte fetch
    word is not in a queue of 8 bytes. *)
Lemma C1_has_iff_witness :
  IqLen.wf (IqLen.mk 8 8 true) /\
  (IqLen.has (IqLen.mk 8 8 true) (rv.jal_at 6) = true <->
   IqLen.has_spec (IqLen.mk 8 8 true) (rv.jal_at 6)).
Proof.
  assert (IqLen.wf (IqLen.mk 8 8 true)) as Hwf
    by (exists 3; split; [lia | reflexivity]).
  split; [exact Hwf |].
  exact (@C1_has_iff rv.decoder (IqLen.mk 8 8 true) (rv.jal_at 6) Hwf).
Defined.

Lemma C2_remove_refines_witness :
  IqLen.wf (IqLen.mk 4 8 true) /\
  IqLen.remove (IqLen.mk 4 8 true) (rv.jal_at 2) =
  IqLen.remove_spec (IqLen.mk 4 8 true) (rv.jal_at 2).
Proof.
  assert (IqLen.wf (IqLen.mk 4 8 true)) as Hwf
    by (exists 2; split; [lia | reflexivity]).
  split; [exact Hwf |].
  exact (@C2_remove_refines rv.decoder (IqLen.mk 4 8 true) (rv.jal_at 2) Hwf).
Defined.

Lemma C10_init_nonempty_witness :
  exists q, IqLen.init 4 = Some q /\ IqLen.has q (rv.addi_at 0 1) = true.
Proof.
  destruct (@C10_init_nonempty rv.decoder 4)
    as (q & k & Hq & _ & _ & _ & _ & _ & _ & Hhas).
  exists q. split; [exact Hq |].
  vm_compute in Hq. injection Hq as <-.
  apply Hhas; vm_compute; [reflexivity | discriminate].
Defined.

(** C3, counterexample.  The first instruction of a fresh queue of width 4
    is a 4-byte jump: the queue has it, and removing it leaves the counter
    at -4 (the size is subtracted, then the pending fetch is lost). *)
Lemma C3_counterexample :
  exists q0 q,
    IqLen.init 4 = Some q0 /\
    IqLen.has q0 (rv.jal_at 2147483648) = true /\
    IqLen.run q0 [IqLen.Remove (rv.jal_at 2147483648)] = Some q /\
    IqLen.len q = -4.
Proof.
  exists (IqLen.mk 4 4 true), (IqLen.mk 4 (-4) false).
  repeat split; reflexivity.
Qed.

Lemma C3_len_bounded_below_witness :
  IqLen.init 4 = Some (IqLen.mk 4 4 true) /\
  IqLen.run (IqLen.mk 4 4 true)
    [IqLen.Remove (rv.cnop_at 0);
     IqLen.Remove (mkInstruction "" 0 "0x8082" 14 "ret")]
  = Some (IqLen.mk 4 (-8) false) /\
  - 2 * IqLen.fetch_size (IqLen.mk 4 (-8) false)
  <= IqLen.len (IqLen.mk 4 (-8) false).
Proof.
  assert (IqLen.init 4 = Some (IqLen.mk 4 4 true)) as Hinit by reflexivity.
  assert (IqLen.run (IqLen.mk 4 4 true)
            [IqLen.Remove (rv.cnop_at 0);
             IqLen.Remove (mkInstruction "" 0 "0x8082" 14 "ret")]
          = Some (IqLen.mk 4 (-8) false)) as Hrun by reflexivity.
  split; [exact Hinit |]. split; [exact Hrun |].
  exact (@C3_len_bounded_below rv.decoder 4 _ _ _ Hinit Hrun).
Defined.

(** ** The branch history table *)

Section BhtFacts.

Lemma bht_index_ok (b : Bht.t) (addr : Z) :
  Bht.contents b ≠ [] ->
  exists index, Bht._index b addr = Ok index /\
                (index < length (Bht.contents b))%nat.
Proof.
  intros Hne. unfold Bht._index.
  assert (0 < Z.of_nat (length (Bht.contents b))) as Hlen.
  { destruct (Bht.contents b); [done | simpl; lia]. }
  destruct (Z.eqb_spec (Z.of_nat (length (Bht.contents b))) 0); [lia |].
  eexists. split; [done |].
  pose proof (Z.mod_pos_bound (Z.shiftr addr 1) _ Hlen). lia.
Qed.

Lemma bht_index_same_length (b b' : Bht.t) (addr : Z) :
  length (Bht.contents b') = length (Bht.contents b) ->
  Bht._index b' addr = Bht._index b addr.
Proof. intros E. unfold Bht._index. by rewrite E. Qed.

Lemma bht_init_wf (entries : Z) : 0 < entries -> Bht.wf (Bht.init entries).
Proof.
  intros Hentries. split; simpl.
  - destruct (Z.to_nat entries) eqn:E; [lia | done].
  - apply Forall_replicate. simpl. lia.
Qed.

Lemma bht_init_untrained (entries : Z) (index : nat) :
  Bht.valid_at (Bht.init entries) index = false.
Proof.
  unfold Bht.valid_at. simpl.
  destruct (replicate (Z.to_nat entries) _ !! index) as [entry |] eqn:E;
    [| done].
  apply lookup_replicate_1 in E as [-> _]. done.
Qed.

(** One resolution, on the slot it hits. *)
Lemma bht_resolve_slot (b : Bht.t) (addr : Z) (taken : bool) :
  Bht.wf b ->
  exists index entry,
    Bht._index b addr = Ok index /\
    Bht.contents b !! index = Some entry /\
    0 <= Bht.sat_counter entry <= 3 /\
    Bht.resolve b addr taken =
    Ok {| Bht.contents :=
            <[index := {| Bht.valid := true;
                          Bht.sat_counter :=
                            Bht.saturate taken (Bht.sat_counter entry) |}]>
              (Bht.contents b) |}.
Proof.
  intros [Hne Hall].
  destruct (bht_index_ok b addr Hne) as (index & Hindex & Hlt).
  destruct (lookup_lt_is_Some_2 _ _ Hlt) as [entry Hentry].
  pose proof (Forall_lookup_1 _ _ _ _ Hall Hentry) as Hrange.
  simpl in Hrange. exists index, entry. repeat split; try done; try lia.
  unfold Bht.resolve. rewrite Hindex. simpl. rewrite Hentry.
  replace (Bht.saturate taken (Bht.sat_counter entry))
    with (if taken
          then (if Bht.sat_counter entry <? 3
                then Bht.sat_counter entry + 1 else Bht.sat_counter entry)
          else (if 0 <? Bht.sat_counter entry
                then Bht.sat_counter entry - 1 else Bht.sat_counter entry));
    [done |].
  unfold Bht.saturate. destruct taken.
  - destruct (Z.ltb_spec (Bht.sat_counter entry) 3); lia.
  - destruct (Z.ltb_spec 0 (Bht.sat_counter entry)); lia.
Qed.

Lemma bht_saturate_range (taken : bool) (counter : Z) :
  0 <= counter <= 3 -> 0 <= Bht.saturate taken counter <= 3.
Proof. unfold Bht.saturate. destruct taken; lia. Qed.

(** One resolution, as seen through [counter_at] and [predict]. *)
Lemma bht_resolve_counter (b : Bht.t) (addr : Z) (taken : bool) :
  Bht.wf b ->
  exists counter b',
    Bht.counter_at b addr = Ok counter /\
    0 <= counter <= 3 /\
    Bht.resolve b addr taken = Ok b' /\
    Bht.counter_at b' addr = Ok (Bht.saturate taken counter) /\
    Bht.predict b' addr = Ok (Some (2 <=? Bht.saturate taken counter)) /\
    Bht.wf b'.
Proof.
  intros Hwf.
  destruct (bht_resolve_slot b addr taken Hwf)
    as (index & entry & Hindex & Hentry & Hrange & Hresolve).
  destruct Hwf as [Hne Hall].
  pose proof (lookup_lt_Some _ _ _ Hentry) as Hlt.
  eexists (Bht.sat_counter entry), _.
  split; [by unfold Bht.counter_at; rewrite Hindex; simpl; rewrite Hentry |].
  split; [done |]. split; [exact Hresolve |].
  assert (forall a, Bht._index
            {| Bht.contents :=
                 <[index := {| Bht.valid := true;
                               Bht.sat_counter :=
                                 Bht.saturate taken (Bht.sat_counter entry)
                            |}]> (Bht.contents b) |} a
          = Bht._index b a) as Hsame.
  { intros a. apply bht_index_same_length. simpl. apply length_insert. }
  repeat split.
  - unfold Bht.counter_at. rewrite Hsame, Hindex. simpl.
    by rewrite list_lookup_insert_eq.
  - unfold Bht.predict. rewrite Hsame, Hindex. simpl.
    by rewrite list_lookup_insert_eq.
  - simpl. intros E. apply (f_equal length) in E.
    rewrite length_insert in E. simpl in E. lia.
  - simpl. apply Forall_insert; [done |]. simpl.
    by apply bht_saturate_range.
Qed.

Lemma bht_valid_at_resolve (b : Bht.t) (index j : nat) (entry : Bht.Entry) :
  (index < length (Bht.contents b))%nat ->
  Bht.valid entry = true ->
  Bht.valid_at {| Bht.contents := <[index := entry]> (Bht.contents b) |} j
    = true <->
  Bht.valid_at b j = true \/ j = index.
Proof.
  intros Hlt Hvalid. unfold Bht.valid_at. simpl.
  destruct (decide (index = j)) as [<- | Hneq].
  - rewrite list_lookup_insert_eq by done. rewrite Hvalid.
    split; [by right | done].
  - rewrite list_lookup_insert_ne by done.
    split; [by left | by intros [Hj | ->]].
Qed.

(** A history of resolutions never raises on a well-formed table, and
    trains exactly the slots it hits. *)
Lemma bht_resolve_all_valid (rs : list (Z * bool)) :
  forall b0, Bht.wf b0 ->
  exists b,
    Bht.resolve_all b0 rs = Ok b /\ Bht.wf b /\
    length (Bht.contents b) = length (Bht.contents b0) /\
    forall j, Bht.valid_at b j = true <->
              Bht.valid_at b0 j = true \/
              Exists (fun r => Bht._index b0 r.1 = Ok j) rs.
Proof.
  induction rs as [| [addr taken] rs IH]; intros b0 Hwf.
  - exists b0. split; [done |]. split; [done |]. split; [done |].
    intros j. split; [by left |].
    intros [Hv | Hex]; [done | by apply Exists_nil in Hex].
  - destruct (bht_resolve_slot b0 addr taken Hwf)
      as (index & entry & Hindex & Hentry & Hrange & Hresolve).
    destruct (bht_resolve_counter b0 addr taken Hwf)
      as (c & b1 & _ & _ & Hresolve' & _ & _ & Hwf1).
    rewrite Hresolve in Hresolve'. injection Hresolve' as Hb1.
    pose proof (lookup_lt_Some _ _ _ Hentry) as Hlt.
    assert (length (Bht.contents b1) = length (Bht.contents b0)) as Hlen1.
    { rewrite <- Hb1. simpl. apply length_insert. }
    destruct (IH b1 Hwf1) as (b & Hall & Hwfb & Hlen & Hvalid).
    assert (forall a, Bht._index b1 a = Bht._index b0 a) as Hsame
      by (intros a; by apply bht_index_same_length).
    assert (forall j, Bht.valid_at b1 j = true <->
                      Bht.valid_at b0 j = true \/ j = index) as Hstep.
    { intros j. rewrite <- Hb1. by apply bht_valid_at_resolve. }
    exists b. simpl. rewrite Hresolve, Hb1. simpl.
    split; [done |]. split; [done |]. split; [congruence |].
    intros j. rewrite Hvalid, Hstep, Exists_cons. simpl.
    rewrite Hindex.
    assert (Exists (fun r => Bht._index b1 r.1 = Ok j) rs <->
            Exists (fun r => Bht._index b0 r.1 = Ok j) rs) as ->.
    { split; intros Hex; (eapply Exists_impl; [exact Hex |]);
        simpl; intros r Hr; by rewrite ?Hsame in *. }
    split.
    + intros [[Hj | ->] | Hj]; [by left | by right; left | by right; right].
    + intros [Hj | [[= ->] | Hj]];
        [by left; left | by left; right | by right].
Qed.

Lemma bht_predict_unknown (b : Bht.t) (addr : Z) (index : nat) :
  Bht._index b addr = Ok index ->
  (index < length (Bht.contents b))%nat ->
  Bht.predict b addr = Ok None <-> Bht.valid_at b index = false.
Proof.
  intros Hindex Hlt. unfold Bht.predict, Bht.valid_at.
  rewrite Hindex. simpl.
  destruct (lookup_lt_is_Some_2 _ _ Hlt) as [entry ->].
  destruct (Bht.valid entry); naive_solver.
Qed.

End BhtFacts.

(** C4.  From a fresh table, [predict] answers unknown exactly for the
    addresses whose slot no resolution has hit; a resolution adds 1 to the
    counter of the slot, capped at 3, when taken, and subtracts 1, floored
    at 0, otherwise, so that the counters stay in [0,3]; four resolutions
    in a row as taken leave the counter at 3 and the prediction at taken,
    four in a row as not taken leave them at 0 and not taken. *)
Theorem C4_bht_predict_resolve :
  (forall entries rs, 0 < entries ->
     exists b,
       Bht.resolve_all (Bht.init entries) rs = Ok b /\ Bht.wf b /\
       forall addr,
         Bht.predict b addr = Ok None <->
         Forall (fun r => Bht._index (Bht.init entries) r.1
                          ≠ Bht._index (Bht.init entries) addr) rs) /\
  (forall b addr taken, Bht.wf b ->
     exists counter b',
       Bht.counter_at b addr = Ok counter /\
       Bht.resolve b addr taken = Ok b' /\
       Bht.counter_at b' addr = Ok (Bht.saturate taken counter) /\
       0 <= Bht.saturate taken counter <= 3 /\
       Bht.wf b') /\
  (forall b addr taken, Bht.wf b ->
     exists b',
       Bht.resolve_all b (replicate 4 (addr, taken)) = Ok b' /\
       Bht.counter_at b' addr = Ok (if taken then 3 else 0) /\
       Bht.predict b' addr = Ok (Some taken)).
Proof.
  split; [| split].
  - intros entries rs Hentries.
    pose proof (bht_init_wf entries Hentries) as Hwf0.
    destruct (bht_resolve_all_valid rs _ Hwf0)
      as (b & Hall & Hwf & Hlen & Hvalid).
    exists b. split; [done |]. split; [done |]. intros addr.
    destruct (bht_index_ok b addr (proj1 Hwf)) as (index & Hindex & Hlt).
    rewrite (bht_predict_unknown b addr index Hindex Hlt).
    rewrite (bht_index_same_length b _ addr (eq_sym Hlen)), Hindex.
    rewrite <- not_true_iff_false, Hvalid, bht_init_untrained.
    rewrite Forall_forall, Exists_exists. split.
    + intros Hnone r Hr Heq. apply Hnone. right. by exists r.
    + intros Hall' [Hfalse | (r & Hr & Heq)]; [done |].
      by apply (Hall' r Hr).
  - intros b addr taken Hwf.
    destruct (bht_resolve_counter b addr taken Hwf)
      as (counter & b' & Hc & Hrange & Hresolve & Hc' & _ & Hwf').
    exists counter, b'.
    split; [done |]. split; [done |]. split; [done |].
    split; [by apply bht_saturate_range | done].
  - intros b addr taken Hwf.
    destruct (bht_resolve_counter b addr taken Hwf)
      as (c0 & b1 & _ & Hr0 & Hres1 & Hc1 & _ & Hwf1).
    destruct (bht_resolve_counter b1 addr taken Hwf1)
      as (c1 & b2 & Hc1' & _ & Hres2 & Hc2 & _ & Hwf2).
    destruct (bht_resolve_counter b2 addr taken Hwf2)
      as (c2 & b3 & Hc2' & _ & Hres3 & Hc3 & _ & Hwf3).
    destruct (bht_resolve_counter b3 addr taken Hwf3)
      as (c3 & b4 & Hc3' & _ & Hres4 & Hc4 & Hp4 & _).
    rewrite Hc1 in Hc1'. injection Hc1' as <-.
    rewrite Hc2 in Hc2'. injection Hc2' as <-.
    rewrite Hc3 in Hc3'. injection Hc3' as <-.
    exists b4. simpl. rewrite Hres1. simpl. rewrite Hres2. simpl.
    rewrite Hres3. simpl. rewrite Hres4. simpl.
    split; [done |]. rewrite Hc4, Hp4.
    unfold Bht.saturate. destruct taken.
    + replace (Z.min 3 (Z.min 3 (Z.min 3 (Z.min 3 (c0 + 1) + 1) + 1) + 1))
        with 3 by lia. done.
    + replace (Z.max 0 (Z.max 0 (Z.max 0 (Z.max 0 (c0 - 1) - 1) - 1) - 1))
        with 0 by lia. done.
Qed.

Lemma C4_bht_predict_resolve_witness :
  Bht.wf (Bht.init 128) /\
  exists b',
    Bht.resolve_all (Bht.init 128) (replicate 4 (2147483652, true)) = Ok b' /\
    Bht.counter_at b' 2147483652 = Ok 3 /\
    Bht.predict b' 2147483652 = Ok (Some true).
Proof.
  assert (Bht.wf (Bht.init 128)) as Hwf.
  { split; [discriminate |]. apply Forall_replicate. simpl. lia. }
  split; [exact Hwf |].
  exact (proj2 (proj2 C4_bht_predict_resolve)
           (Bht.init 128) 2147483652 true Hwf).
Defined.

(** ** The return address stack *)

Section RasFacts.

Lemma ras_step_depth (r : Ras.t) (o : Ras.op) :
  Ras.depth (Ras.step r o) = Ras.depth r.
Proof.
  destruct o as [addr | |]; simpl; [done | | done].
  unfold Ras.drop. by destruct (0 <? Z.of_nat (length (Ras.stack r))).
Qed.

Lemma ras_run_depth (ops : list Ras.op) :
  forall r, Ras.depth (Ras.run r ops) = Ras.depth r.
Proof.
  unfold Ras.run. induction ops as [| o ops IH]; intros r; simpl; [done |].
  by rewrite IH, ras_step_depth.
Qed.

Lemma tail_drop {A : Type} (l : list A) : tail l = drop 1 l.
Proof. by destruct l. Qed.

Lemma elem_of_drop_inv {A : Type} (x : A) (n : nat) (l : list A) :
  x ∈ drop n l -> x ∈ l.
Proof.
  intros Hx. rewrite <- (take_drop n l). apply elem_of_app. by right.
Qed.

(** What [push] leaves on the stack: the last [depth] addresses. *)
Lemma ras_push_stack (r : Ras.t) (addr : Z) :
  0 <= Ras.depth r ->
  (length (Ras.stack r) <= Z.to_nat (Ras.depth r))%nat ->
  Ras.stack (Ras.push r addr) =
  drop (length (Ras.stack r) + 1 - Z.to_nat (Ras.depth r))
       (Ras.stack r ++ [addr]).
Proof.
  intros Hdepth Hlen. unfold Ras.push. simpl.
  rewrite length_app. simpl.
  destruct (Z.ltb_spec (Ras.depth r)
              (Z.of_nat (length (Ras.stack r) + 1))) as [Hfull | Hroom].
  - replace (length (Ras.stack r) + 1 - Z.to_nat (Ras.depth r))%nat
      with 1%nat by lia.
    apply tail_drop.
  - replace (length (Ras.stack r) + 1 - Z.to_nat (Ras.depth r))%nat
      with 0%nat by lia.
    done.
Qed.

Lemma ras_push_length (r : Ras.t) (addr : Z) :
  0 <= Ras.depth r ->
  (length (Ras.stack r) <= Z.to_nat (Ras.depth r))%nat ->
  (length (Ras.stack (Ras.push r addr)) <= Z.to_nat (Ras.depth r))%nat.
Proof.
  intros Hdepth Hlen. rewrite ras_push_stack by done.
  rewrite length_drop, length_app. simpl. lia.
Qed.

Lemma ras_drop_length (r : Ras.t) :
  (length (Ras.stack (Ras.drop r)) <= length (Ras.stack r))%nat.
Proof.
  unfold Ras.drop.
  destruct (0 <? Z.of_nat (length (Ras.stack r))); simpl; [| done].
  destruct (Ras.stack r) as [| x s] using rev_ind; [done |].
  rewrite removelast_last, length_app. lia.
Qed.

Lemma ras_run_length (ops : list Ras.op) :
  forall r,
    0 <= Ras.depth r ->
    (length (Ras.stack r) <= Z.to_nat (Ras.depth r))%nat ->
    (length (Ras.stack (Ras.run r ops)) <= Z.to_nat (Ras.depth r))%nat.
Proof.
  unfold Ras.run.
  induction ops as [| o ops IH]; intros r Hdepth Hlen; simpl; [done |].
  rewrite <- (ras_step_depth r o).
  apply IH; rewrite ras_step_depth; [done |].
  destruct o as [addr | |]; simpl; [| | done].
  - by apply ras_push_length.
  - pose proof (ras_drop_length r). lia.
Qed.

(** Pushing a whole list keeps its last [depth] addresses. *)
Lemma ras_push_all (l : list Z) :
  forall r,
    0 <= Ras.depth r ->
    (length (Ras.stack r) <= Z.to_nat (Ras.depth r))%nat ->
    Ras.stack (Ras.run r (map Ras.Push l)) =
    drop (length (Ras.stack r) + length l - Z.to_nat (Ras.depth r))
         (Ras.stack r ++ l).
Proof.
  induction l as [| addr l IH]; intros r Hdepth Hlen.
  - simpl. rewrite app_nil_r.
    replace (length (Ras.stack r) + 0 - Z.to_nat (Ras.depth r))%nat
      with 0%nat by lia.
    done.
  - change (Ras.run r (map Ras.Push (addr :: l)))
      with (Ras.run (Ras.push r addr) (map Ras.Push l)).
    pose proof (ras_push_length r addr Hdepth Hlen) as Hlen'.
    rewrite IH by done.
    change (Ras.depth (Ras.push r addr)) with (Ras.depth r).
    rewrite (ras_push_stack r addr Hdepth Hlen).
    rewrite length_drop, length_app, (cons_middle addr (Ras.stack r) l).
    rewrite app_assoc. simpl.
    rewrite <- drop_app_le by (rewrite length_app; simpl; lia).
    rewrite drop_drop. f_equal. lia.
Qed.

End RasFacts.

(** C5.  With depth [d], [push] appends the address and removes the bottom
    entry whenever the size then exceeds [d - 1]; the stack never holds
    more than [d - 1] addresses; after [d] distinct addresses and one more,
    the oldest pushed address is no longer on the stack. *)
Theorem C5_ras_push_evicts (d : Z) :
  1 <= d ->
  (forall ops addr,
     let r := Ras.run (Ras.init d) ops in
     Ras.stack (Ras.push r addr) =
     if d - 1 <? Z.of_nat (length (Ras.stack r ++ [addr]))
     then tail (Ras.stack r ++ [addr]) else Ras.stack r ++ [addr]) /\
  (forall ops,
     Z.of_nat (length (Ras.stack (Ras.run (Ras.init d) ops))) <= d - 1) /\
  (forall l addr,
     Z.of_nat (length l) = d -> NoDup (l ++ [addr]) ->
     let r := Ras.run (Ras.init d) (map Ras.Push (l ++ [addr])) in
     Ras.stack r = drop 2 (l ++ [addr]) /\
     forall oldest, head l = Some oldest -> oldest ∉ Ras.stack r).
Proof.
  intros Hd.
  assert (0 <= Ras.depth (Ras.init d)) as Hdepth by (simpl; lia).
  assert (length (Ras.stack (Ras.init d))
          <= Z.to_nat (Ras.depth (Ras.init d)))%nat as Hempty
    by (simpl; lia).
  split; [| split].
  - intros ops addr r. unfold Ras.push. simpl.
    unfold r. by rewrite ras_run_depth.
  - intros ops. pose proof (ras_run_length ops _ Hdepth Hempty) as Hlen.
    simpl in Hlen. lia.
  - intros l addr Hl Hnodup r.
    assert (Ras.stack r = drop 2 (l ++ [addr])) as Hstack.
    { unfold r. rewrite ras_push_all by done. simpl.
      rewrite length_app. simpl. f_equal. lia. }
    split; [done |]. intros oldest Hhead. rewrite Hstack.
    destruct l as [| x l]; [done |]. injection Hhead as ->.
    simpl in *. apply NoDup_cons in Hnodup as [Hnotin _].
    intros Hin. apply Hnotin. by apply (elem_of_drop_inv _ 1).
Qed.

Lemma C5_ras_push_evicts_witness :
  1 <= 3 /\
  Ras.stack (Ras.run (Ras.init 3) (map Ras.Push ([10; 20; 30] ++ [40])))
  = drop 2 ([10; 20; 30] ++ [40]).
Proof.
  assert (1 <= 3) as Hd by lia.
  split; [exact Hd |].
  refine (proj1 (proj2 (proj2 (C5_ras_push_evicts 3 Hd))
                   [10; 20; 30] 40 eq_refl _)).
  compute_done.
Defined.

Section RasRead.

Lemma ras_drop_snoc (r : Ras.t) (s : list Z) (top : Z) :
  Ras.stack r = s ++ [top] ->
  Ras.drop r = {| Ras.depth := Ras.depth r; Ras.stack := s;
                  Ras.last_dropped := Some top |}.
Proof.
  intros Hstack. unfold Ras.drop. rewrite Hstack, length_app. simpl.
  destruct (Z.ltb_spec 0 (Z.of_nat (length s + 1))); [| lia].
  by rewrite removelast_last, last_snoc.
Qed.

Lemma ras_read_register (r : Ras.t) : Ras.read r = Ras.last_dropped r.
Proof. unfold Ras.read. by destruct (Ras.last_dropped r). Qed.

(** Only [drop] writes the register. *)
Lemma ras_run_no_drop (ops : list Ras.op) :
  forall r, Forall (fun o => o ≠ Ras.Drop) ops ->
            Ras.last_dropped (Ras.run r ops) = Ras.last_dropped r.
Proof.
  unfold Ras.run.
  induction ops as [| o ops IH]; intros r Hops; simpl; [done |].
  apply Forall_cons in Hops as [Ho Hops]. rewrite IH by done.
  by destruct o.
Qed.

(** With room for one address at least, the address just pushed is on
    top. *)
Lemma ras_push_top (r : Ras.t) (addr : Z) :
  1 <= Ras.depth r ->
  exists s, Ras.stack (Ras.push r addr) = s ++ [addr].
Proof.
  intros Hdepth. unfold Ras.push. simpl. rewrite length_app. simpl.
  destruct (Z.ltb_spec (Ras.depth r)
              (Z.of_nat (length (Ras.stack r) + 1))) as [Hfull | Hroom].
  - destruct (Ras.stack r) as [| x s]; [simpl in Hfull; lia |].
    by exists s.
  - by exists (Ras.stack r).
Qed.

End RasRead.

(** C6, counterexample.  With depth 1 the stack has no room: the address
    just pushed is forgotten at once, and push, drop, read answers none. *)
Lemma C6_counterexample :
  Ras.read (Ras.drop (Ras.push (Ras.init 1) 2147483652)) = None.
Proof. reflexivity. Qed.

(** C6 (amended).  [read] answers the register last written by [drop],
    without changing anything; pushes and reads do not change it; [drop]
    stores the popped top of a non-empty stack, and none on an empty one;
    so drop then read on a fresh stack answers none; and, when the
    configured depth is at least 2, push, drop, read answers the pushed
    address. *)
Theorem C6_ras_read_last_dropped :
  (forall r, Ras.read r = Ras.last_dropped r /\ Ras.step r Ras.Read = r) /\
  (forall r addr, Ras.read (Ras.push r addr) = Ras.read r) /\
  (forall r s top,
     Ras.stack r = s ++ [top] ->
     Ras.read (Ras.drop r) = Some top /\ Ras.stack (Ras.drop r) = s) /\
  (forall r, Ras.stack r = [] -> Ras.read (Ras.drop r) = None) /\
  (forall r ops,
     Forall (fun o => o ≠ Ras.Drop) ops ->
     Ras.read (Ras.run (Ras.drop r) ops) = Ras.read (Ras.drop r)) /\
  (forall d, Ras.read (Ras.drop (Ras.init d)) = None) /\
  (forall d ops addr,
     2 <= d ->
     Ras.read (Ras.drop (Ras.push (Ras.run (Ras.init d) ops) addr))
     = Some addr).
Proof.
  split; [| split; [| split; [| split; [| split; [| split]]]]].
  - intros r. split; [apply ras_read_register | done].
  - intros r addr. by rewrite !ras_read_register.
  - intros r s top Hstack. by rewrite (ras_drop_snoc r s top).
  - intros r Hstack. unfold Ras.drop. by rewrite Hstack.
  - intros r ops Hops. rewrite !ras_read_register.
    by apply ras_run_no_drop.
  - done.
  - intros d ops addr Hd.
    destruct (ras_push_top (Ras.run (Ras.init d) ops) addr) as [s Hs].
    { rewrite ras_run_depth. simpl. lia. }
    by rewrite (ras_drop_snoc _ s addr Hs).
Qed.

Lemma C6_ras_read_last_dropped_witness :
  2 <= 2 /\
  Ras.read (Ras.drop (Ras.push (Ras.run (Ras.init 2) [Ras.Push 8]) 12))
  = Some 12.
Proof.
  assert (2 <= 2) as Hd by lia.
  split; [exact Hd |].
  exact (proj2 (proj2 (proj2 (proj2 (proj2 (proj2
           C6_ras_read_last_dropped)))))
           2 [Ras.Push 8] 12 Hd).
Defined.

(** ** The functional units *)

(** C7, counterexample.  With the second unit enabled and every unit free,
    the first issue takes ALU2 and leaves ALU free. *)
Lemma C7_counterexample :
  exists f1,
    FusBusy.issue_alu (FusBusy.init true) = Ok f1 /\
    FusBusy.alu f1 = false /\ FusBusy.alu2 f1 = true.
Proof. eexists. repeat split. Qed.

(** C7 (amended).  With the second arithmetic unit enabled and every unit
    free, two ALU issues in the same cycle both succeed, no assertion
    fires: the first takes ALU2 alone, the second takes ALU and BRANCH.
    In general an ALU issue reserves only ALU2 when ALU2 is ready, and
    otherwise sets ALU and BRANCH busy (ALU being free). *)
Theorem C7_two_alu_issues :
  (forall f,
     FusBusy.has_alu2 f = true -> FusBusy.all_free f ->
     exists f1 f2,
       FusBusy.issue_alu f = Ok f1 /\
       FusBusy.alu f1 = false /\ FusBusy.branch f1 = false /\
       FusBusy.alu2 f1 = true /\
       FusBusy.is_ready f1 ALU = true /\
       FusBusy.issue_alu f1 = Ok f2 /\
       FusBusy.alu f2 = true /\ FusBusy.branch f2 = true /\
       FusBusy.alu2 f2 = true /\
       FusBusy.mul f2 = false /\ FusBusy.ldu f2 = false /\
       FusBusy.stu f2 = false) /\
  (forall f,
     FusBusy._alu2_ready f = true ->
     FusBusy.issue_alu f =
     Ok {| FusBusy.has_alu2 := FusBusy.has_alu2 f;
           FusBusy.alu := FusBusy.alu f; FusBusy.mul := FusBusy.mul f;
           FusBusy.branch := FusBusy.branch f; FusBusy.ldu := FusBusy.ldu f;
           FusBusy.stu := FusBusy.stu f; FusBusy.alu2 := true;
           FusBusy.issued_mul := FusBusy.issued_mul f |}) /\
  (forall f,
     FusBusy._alu2_ready f = false -> FusBusy.alu f = false ->
     FusBusy.issue_alu f =
     Ok {| FusBusy.has_alu2 := FusBusy.has_alu2 f;
           FusBusy.alu := true; FusBusy.mul := FusBusy.mul f;
           FusBusy.branch := true; FusBusy.ldu := FusBusy.ldu f;
           FusBusy.stu := FusBusy.stu f; FusBusy.alu2 := FusBusy.alu2 f;
           FusBusy.issued_mul := FusBusy.issued_mul f |}).
Proof.
  split; [| split].
  - intros [h a m b l s a2 im]. unfold FusBusy.all_free. simpl.
    intros -> (-> & -> & -> & -> & -> & ->).
    eexists _, _. repeat split.
  - intros f Hready. unfold FusBusy.issue_alu. by rewrite Hready.
  - intros f Hready Halu. unfold FusBusy.issue_alu.
    by rewrite Hready, Halu.
Qed.

Lemma C7_two_alu_issues_witness :
  FusBusy.has_alu2 (FusBusy.init true) = true /\
  FusBusy.all_free (FusBusy.init true) /\
  exists f1 f2,
    FusBusy.issue_alu (FusBusy.init true) = Ok f1 /\
    FusBusy.alu f1 = false /\ FusBusy.branch f1 = false /\
    FusBusy.alu2 f1 = true /\
    FusBusy.is_ready f1 ALU = true /\
    FusBusy.issue_alu f1 = Ok f2 /\
    FusBusy.alu f2 = true /\ FusBusy.branch f2 = true /\
    FusBusy.alu2 f2 = true /\
    FusBusy.mul f2 = false /\ FusBusy.ldu f2 = false /\
    FusBusy.stu f2 = false.
Proof.
  assert (FusBusy.has_alu2 (FusBusy.init true) = true) as Hhas
    by reflexivity.
  assert (FusBusy.all_free (FusBusy.init true)) as Hfree
    by (repeat split; reflexivity).
  split; [exact Hhas |]. split; [exact Hfree |].
  exact (proj1 C7_two_alu_issues (FusBusy.init true) Hhas Hfree).
Defined.

(** ** The timed part *)

Section TimedPart.

Lemma filter_loop_app (l : list Instruction) :
  forall accepting filtered,
    filter_loop l accepting filtered =
    filtered ++ filter_loop l accepting [].
Proof.
  induction l as [| instr l IH]; intros accepting filtered; simpl.
  - by rewrite app_nil_r.
  - destruct (is_marker instr); [apply IH |].
    destruct accepting; [| apply IH].
    rewrite (IH true (filtered ++ [instr])), (IH true [instr]).
    by rewrite app_assoc.
Qed.

(** Outside the region everything up to the next marker is skipped. *)
Lemma filter_loop_outside (l : list Instruction) :
  filter_loop l false [] = filter_loop (after_marker l) true [].
Proof.
  induction l as [| instr l IH]; simpl; [done |].
  by destruct (is_marker instr).
Qed.

(** Inside the region everything up to the next marker is kept. *)
Lemma filter_loop_inside (l : list Instruction) :
  filter_loop l true [] =
  before_marker l ++ filter_loop (after_marker l) false [].
Proof.
  induction l as [| instr l IH]; simpl; [done |].
  destruct (is_marker instr); [done |].
  by rewrite filter_loop_app, IH.
Qed.

Lemma after_marker_app (pre rest : list Instruction) (m : Instruction) :
  Forall (fun i => is_marker i = false) pre -> is_marker m = true ->
  after_marker (pre ++ m :: rest) = rest.
Proof.
  intros Hpre Hm. induction Hpre as [| i pre Hi Hpre IH]; simpl.
  - by rewrite Hm.
  - by rewrite Hi.
Qed.

Lemma before_marker_app (pre rest : list Instruction) (m : Instruction) :
  Forall (fun i => is_marker i = false) pre -> is_marker m = true ->
  before_marker (pre ++ m :: rest) = pre.
Proof.
  intros Hpre Hm. induction Hpre as [| i pre Hi Hpre IH]; simpl.
  - by rewrite Hm.
  - by rewrite Hi, IH.
Qed.

Lemma after_marker_none (l : list Instruction) :
  Forall (fun i => is_marker i = false) l -> after_marker l = [].
Proof.
  intros Hl. induction Hl as [| i l Hi Hl IH]; simpl; [done |].
  by rewrite Hi.
Qed.

Lemma before_marker_none (l : list Instruction) :
  Forall (fun i => is_marker i = false) l -> before_marker l = l.
Proof.
  intros Hl. induction Hl as [| i l Hi Hl IH]; simpl; [done |].
  by rewrite Hi, IH.
Qed.

Lemma markers_zero (l : list Instruction) :
  markers l = O -> Forall (fun i => is_marker i = false) l.
Proof.
  unfold markers. induction l as [| i l IH]; [done |].
  rewrite filter_cons. destruct (decide (is_marker i = true)) as [Hi | Hi].
  - done.
  - intros Hl. apply Forall_cons. split; [| by apply IH].
    by destruct (is_marker i).
Qed.

Lemma markers_after (l : list Instruction) :
  markers (after_marker l) = (markers l - 1)%nat.
Proof.
  unfold markers. induction l as [| i l IH]; [done |].
  rewrite filter_cons. simpl.
  destruct (decide (is_marker i = true)) as [Hi | Hi].
  - rewrite Hi. simpl. lia.
  - destruct (is_marker i); [done | apply IH].
Qed.

(** Without a marker nothing is timed. *)
Lemma filter_timed_part_no_marker (l : list Instruction) :
  markers l = O -> filter_timed_part l = [].
Proof.
  intros Hl. unfold filter_timed_part.
  by rewrite filter_loop_outside, (after_marker_none l (markers_zero l Hl)).
Qed.

(** The region between the first two markers, then the timed part of
    what follows the second one. *)
Lemma filter_timed_part_regions (l : list Instruction) :
  filter_timed_part l =
  between_first_two_markers l
  ++ filter_timed_part (after_marker (after_marker l)).
Proof.
  unfold filter_timed_part, between_first_two_markers.
  by rewrite filter_loop_outside, filter_loop_inside.
Qed.

End TimedPart.

(** C8, counterexample.  After a third marker the loop accepts again: the
    result holds an instruction that is not between the first two
    markers. *)
Lemma C8_counterexample :
  let trace := [rv.marker_at 0 1; rv.addi_at 4 2; rv.marker_at 8 3;
                rv.marker_at 12 4; rv.addi_at 16 5] in
  filter_timed_part trace = [rv.addi_at 4 2; rv.addi_at 16 5] /\
  between_first_two_markers trace = [rv.addi_at 4 2].
Proof. split; reflexivity. Qed.

(** C8 (amended).  Every instruction whose opcode contains the marker
    toggles the inside-region flag and is itself excluded; the others are
    kept, in order, exactly while the flag is set.  So the result is the
    instructions strictly between the first and the second marker,
    followed by the timed part of what comes after the second marker; with
    at most two markers it is exactly the former; in particular a trace
    made of a marker, some instructions (10, say), a second marker and
    further non-marker lines yields exactly those instructions. *)
Theorem C8_filter_timed_part_toggles :
  (forall pre m rest,
     Forall (fun i => is_marker i = false) pre -> is_marker m = true ->
     filter_loop (pre ++ m :: rest) false [] = filter_loop rest true [] /\
     filter_loop (pre ++ m :: rest) true [] =
       pre ++ filter_loop rest false []) /\
  (forall l,
     Forall (fun i => is_marker i = false) l ->
     filter_loop l false [] = [] /\ filter_loop l true [] = l) /\
  (forall l,
     filter_timed_part l =
     between_first_two_markers l
     ++ filter_timed_part (after_marker (after_marker l))) /\
  (forall l,
     (markers l <= 2)%nat ->
     filter_timed_part l = between_first_two_markers l) /\
  (forall pre m1 body m2 post,
     Forall (fun i => is_marker i = false) pre -> is_marker m1 = true ->
     Forall (fun i => is_marker i = false) body -> is_marker m2 = true ->
     Forall (fun i => is_marker i = false) post ->
     filter_timed_part (pre ++ m1 :: body ++ m2 :: post) = body).
Proof.
  split; [| split; [| split; [| split]]].
  - intros pre m rest Hpre Hm. split.
    + by rewrite filter_loop_outside, after_marker_app.
    + by rewrite filter_loop_inside, before_marker_app, after_marker_app.
  - intros l Hl. split.
    + by rewrite filter_loop_outside, after_marker_none.
    + rewrite filter_loop_inside, before_marker_none, after_marker_none
        by done.
      by rewrite app_nil_r.
  - apply filter_timed_part_regions.
  - intros l Hl. rewrite filter_timed_part_regions at 1.
    rewrite (filter_timed_part_no_marker (after_marker (after_marker l))).
    + by rewrite app_nil_r.
    + rewrite !markers_after. lia.
  - intros pre m1 body m2 post Hpre Hm1 Hbody Hm2 Hpost.
    rewrite filter_timed_part_regions. unfold between_first_two_markers.
    rewrite (after_marker_app pre _ m1 Hpre Hm1).
    rewrite (before_marker_app body _ m2 Hbody Hm2).
    rewrite (after_marker_app body _ m2 Hbody Hm2).
    unfold filter_timed_part.
    rewrite filter_loop_outside, (after_marker_none post Hpost).
    by rewrite app_nil_r.
Qed.

Lemma C8_filter_timed_part_toggles_witness :
  let body := map (fun k => rv.addi_at (4 * Z.of_N k) k)
                  [2; 3; 4; 5; 6; 7; 8; 9; 10; 11]%N in
  length body = 10%nat /\
  filter_timed_part
    ([rv.addi_at 0 0] ++ rv.marker_at 4 1 :: body
     ++ rv.marker_at 48 12 :: [rv.addi_at 52 13; rv.cnop_at 56])
  = body.
Proof.
  intros body. split; [reflexivity |].
  apply (proj2 (proj2 (proj2 (proj2 C8_filter_timed_part_toggles))));
    try reflexivity; compute_done.
Defined.

(** ** Statistics *)

Section Stats.

(** No instruction in the timed region: [retired[0]] raises before
    anything is written. *)
Lemma print_stats_empty (input_file : string) :
  print_stats [] input_file = ([], Some IndexError).
Proof. reflexivity. Qed.

(** A single instruction in the timed region: the cycle count is zero and
    the division raises. *)
Lemma print_stats_single (instr : Instruction) (input_file : string) :
  print_stats [instr] input_file =
  ([Header input_file; CycleNumber 0], Some ZeroDivisionError).
Proof.
  unfold print_stats, count_cycles. simpl.
  by rewrite Z.sub_diag.
Qed.

(** A trace without any marker is fatal to [main]. *)
Lemma main_no_marker (instr_queue : list Instruction)
    (input_file : string) :
  markers instr_queue = O ->
  main instr_queue input_file = ([], Some IndexError).
Proof.
  intros Hnone. unfold main.
  by rewrite (filter_timed_part_no_marker _ Hnone).
Qed.

(** The other entry point does guard the short cases. *)
Lemma compute_accuracy_main_guard (cycles1 cycles2 : list Z) :
  (length cycles1 < 2)%nat \/ (length cycles2 < 2)%nat ->
  compute_accuracy.main cycles1 cycles2 =
  compute_accuracy.NotEnoughInstructions.
Proof.
  intros Hshort. unfold compute_accuracy.main.
  destruct (Z.ltb_spec (Z.of_nat (length cycles1)) 2);
    destruct (Z.ltb_spec (Z.of_nat (length cycles2)) 2); simpl;
    try done; lia.
Qed.

End Stats.

(** C9.  The specification wants a trace with fewer than two markers, or
    with fewer than two instructions in the timed region, to be reported
    as insufficient data without an error.  [main] raises instead:
    [IndexError] on a trace without a marker (here the empty trace and a
    trace of two plain instructions), [ZeroDivisionError] when the timed
    region holds a single instruction. *)
Theorem C9_main_raises_on_short_traces :
  main [] "trace.log" = ([], Some IndexError) /\
  main [rv.addi_at 0 10; rv.addi_at 4 11] "trace.log"
  = ([], Some IndexError) /\
  main [rv.marker_at 0 10; rv.addi_at 4 11; rv.marker_at 8 12] "trace.log"
  = ([Header "trace.log"; CycleNumber 0], Some ZeroDivisionError).
Proof. repeat split; reflexivity. Qed.

(** * Further properties of the model *)

(** ** [to_signed] *)

(** X1.  On a word of [xlen >= 1] bits [to_signed] answers the two's
    complement reading: a value of the signed range, congruent to the word
    modulo [2 ^ xlen], and the word itself below the sign bit.  With
    [xlen <= 0] the shift count is negative and the call raises. *)
Theorem to_signed_twos_complement (value xlen : Z) :
  (xlen <= 0 -> to_signed value xlen = None) /\
  (1 <= xlen -> 0 <= value < 2 ^ xlen ->
   exists signed,
     to_signed value xlen = Some signed /\
     - 2 ^ (xlen - 1) <= signed < 2 ^ (xlen - 1) /\
     signed `mod` 2 ^ xlen = value /\
     (value < 2 ^ (xlen - 1) -> signed = value)).
Proof.
  unfold to_signed. split.
  - intros Hx. by destruct (Z.ltb_spec (xlen - 1) 0); [| lia].
  - intros Hx Hv. destruct (Z.ltb_spec (xlen - 1) 0); [lia |].
    rewrite Z.shiftr_div_pow2, Z.shiftl_1_l by lia.
    assert (0 < 2 ^ (xlen - 1)) as Hh by (apply Z.pow_pos_nonneg; lia).
    assert (2 ^ xlen = 2 * 2 ^ (xlen - 1)) as Hdouble.
    { rewrite <- Z.pow_succ_r by lia. f_equal. lia. }
    eexists. split; [done |].
    destruct (Z.eqb_spec (value / 2 ^ (xlen - 1)) 0) as [Hlow | Hhigh];
      simpl.
    + apply Z.div_small_iff in Hlow; [| lia].
      destruct Hlow as [Hlow | Hlow]; [| lia].
      split; [lia |]. split; [| done]. apply Z.mod_small. lia.
    + assert (2 ^ (xlen - 1) <= value) as Hge.
      { destruct (Z.lt_ge_cases value (2 ^ (xlen - 1))) as [Hlt | Hge];
          [| done].
        exfalso. apply Hhigh. apply Z.div_small. lia. }
      split; [lia |]. split; [| lia].
      replace (value - 2 ^ xlen) with (value + (-1) * 2 ^ xlen) by lia.
      rewrite Z_mod_plus_full. apply Z.mod_small. lia.
Qed.

Lemma to_signed_twos_complement_witness :
  1 <= 32 /\ 0 <= 4294967295 < 2 ^ 32 /\
  exists signed,
    to_signed 4294967295 32 = Some signed /\
    - 2 ^ (32 - 1) <= signed < 2 ^ (32 - 1) /\
    signed `mod` 2 ^ 32 = 4294967295 /\
    (4294967295 < 2 ^ (32 - 1) -> signed = 4294967295).
Proof.
  assert (1 <= 32) as Hx by lia.
  assert (0 <= 4294967295 < 2 ^ 32) as Hv by lia.
  split; [exact Hx |]. split; [exact Hv |].
  exact (proj2 (to_signed_twos_complement 4294967295 32) Hx Hv).
Defined.

(** ** More on the instruction queue *)

Section IqLenMore.
Context `{isa.Instr}.

Lemma truncate_spec_zero (fs buffered : Z) :
  0 < fs -> IqLen.truncate_spec fs buffered 0 = fs * (buffered / fs).
Proof.
  intros Hfs. unfold IqLen.truncate_spec.
  pose proof (Z.mod_pos_bound buffered fs Hfs) as Hmod.
  pose proof (Z.div_mod buffered fs) as Hdiv.
  destruct (Z.ltb_spec (0 - (fs - buffered `mod` fs)) 0); lia.
Qed.

Lemma truncate_spec_aligned (fs buffered index : Z) :
  0 < fs -> 0 <= index < fs ->
  (IqLen.truncate_spec fs buffered index + index) `mod` fs = 0.
Proof.
  intros Hfs Hindex. unfold IqLen.truncate_spec.
  pose proof (Z.mod_pos_bound buffered fs Hfs) as Hmod.
  pose proof (Z.div_mod buffered fs) as Hdiv.
  destruct (Z.ltb_spec (index - (fs - buffered `mod` fs)) 0).
  - replace (buffered - (index - (fs - buffered `mod` fs) + fs) + index)
      with (buffered / fs * fs) by lia.
    apply Z_mod_mult.
  - replace (buffered - (index - (fs - buffered `mod` fs)) + index)
      with ((buffered / fs + 1) * fs) by lia.
    apply Z_mod_mult.
Qed.

(** What [jump] leaves: the counter, less the pending fetch, rounded down
    to a multiple of the fetch width. *)
Lemma jump_closed_form (q : IqLen.t) :
  IqLen.wf q ->
  IqLen.jump q =
  {| IqLen.fetch_size := IqLen.fetch_size q;
     IqLen.len :=
       IqLen.fetch_size q
       * ((if IqLen.new_fetch q then IqLen.len q - IqLen.fetch_size q
           else IqLen.len q) / IqLen.fetch_size q);
     IqLen.new_fetch := false |}.
Proof.
  intros Hwf. pose proof (wf_fetch_size_pos q Hwf) as Hfs.
  rewrite (jump_refines q Hwf). unfold IqLen.jump_spec.
  rewrite truncate_spec_zero by lia.
  by destruct (IqLen.new_fetch q) eqn:Hnf.
Qed.

(** X2.  After a flush the queue has no instruction of a positive size. *)
Theorem flush_has_nothing (q : IqLen.t) (i : Instruction) :
  IqLen.wf q -> 0 < isa.size i -> IqLen.has (IqLen.flush q) i = false.
Proof.
  intros Hwf Hsize. pose proof (wf_fetch_size_pos q Hwf) as Hfs.
  unfold IqLen.has. simpl.
  destruct (IqLen._is_crossword (IqLen.flush q) i); apply Z.leb_gt; lia.
Qed.

(** X3.  [jump] leaves a whole number of fetch words and no pending
    fetch, and a second [jump] in a row changes nothing. *)
Theorem jump_aligned_idempotent (q : IqLen.t) :
  IqLen.wf q ->
  IqLen.len (IqLen.jump q) `mod` IqLen.fetch_size q = 0 /\
  IqLen.new_fetch (IqLen.jump q) = false /\
  IqLen.jump (IqLen.jump q) = IqLen.jump q.
Proof.
  intros Hwf. pose proof (wf_fetch_size_pos q Hwf) as Hfs.
  assert (IqLen.wf (IqLen.jump q)) as Hwf'.
  { apply (wf_same_width q); [| done]. by rewrite jump_closed_form. }
  rewrite (jump_closed_form (IqLen.jump q) Hwf').
  rewrite (jump_closed_form q Hwf). simpl.
  split; [| split; [done |]].
  - rewrite Z.mul_comm. apply Z_mod_mult.
  - f_equal.
    set (words := (if IqLen.new_fetch q
                   then IqLen.len q - IqLen.fetch_size q
                   else IqLen.len q) / IqLen.fetch_size q).
    rewrite (Z.mul_comm (IqLen.fetch_size q) words), Z.div_mul by lia.
    lia.
Qed.

Lemma jump_aligned (q : IqLen.t) :
  IqLen.wf q -> IqLen.len (IqLen.jump q) `mod` IqLen.fetch_size q = 0.
Proof.
  intros Hwf. rewrite (jump_closed_form q Hwf). simpl.
  rewrite Z.mul_comm. apply Z_mod_mult.
Qed.

(** X4.  After [remove] the buffered bytes end on a fetch word boundary:
    counted from the next address when the instruction falls through, and
    a whole number of fetch words when it jumps. *)
Theorem remove_realigns (q : IqLen.t) (i : Instruction) :
  IqLen.wf q ->
  (if isa.is_jump i then IqLen.len (IqLen.remove q i)
   else next_addr i + IqLen.len (IqLen.remove q i))
  `mod` IqLen.fetch_size q = 0.
Proof.
  intros Hwf. pose proof (wf_fetch_size_pos q Hwf) as Hfs.
  unfold IqLen.remove. cbv zeta.
  set (q1 := {| IqLen.fetch_size := IqLen.fetch_size q;
                IqLen.len := IqLen.len q - isa.size i;
                IqLen.new_fetch := IqLen.new_fetch q |}).
  assert (IqLen.wf q1) as Hwf1 by (by apply (wf_same_width q)).
  rewrite (truncate_refines q1 _ Hwf1), (addr_index_mod q1 _ Hwf1).
  destruct (isa.is_jump i).
  - apply (jump_aligned
             {| IqLen.fetch_size := IqLen.fetch_size q1;
                IqLen.len := _; IqLen.new_fetch := _ |}).
    by apply (wf_same_width q).
  - simpl. rewrite Z.add_comm, <- Zplus_mod_idemp_r.
    rewrite Zplus_mod_idemp_r.
    rewrite <- (Zplus_mod_idemp_r (next_addr i)).
    apply truncate_spec_aligned; [lia |].
    apply Z.mod_pos_bound. lia.
Qed.

(** X5.  Fetching repays any debt: after enough fetches the queue has the
    instruction, and keeps having it as fetches go on. *)
Theorem fetches_make_available (q : IqLen.t) (i : Instruction) :
  IqLen.wf q ->
  exists n, forall m, (n <= m)%nat ->
    IqLen.has (Nat.iter m IqLen.fetch q) i = true.
Proof.
  intros Hwf. pose proof (wf_fetch_size_pos q Hwf) as Hfs.
  assert (forall m,
            IqLen.fetch_size (Nat.iter m IqLen.fetch q) = IqLen.fetch_size q
            /\ IqLen.len (Nat.iter m IqLen.fetch q)
               = IqLen.len q + Z.of_nat m * IqLen.fetch_size q) as Hiter.
  { induction m as [| m [IHfs IHlen]]; [simpl; split; [done | lia] |].
    rewrite Nat.iter_succ. unfold IqLen.fetch at 1 3. simpl.
    rewrite IHfs, IHlen. split; [done | lia]. }
  exists (Z.to_nat (isa.size i + IqLen.fetch_size q - IqLen.len q)).
  intros m Hm. destruct (Hiter m) as [Hfsm Hlenm].
  unfold IqLen.has. rewrite Hfsm, Hlenm.
  assert (isa.size i + IqLen.fetch_size q - IqLen.len q
          <= Z.of_nat m * IqLen.fetch_size q) by nia.
  destruct (IqLen._is_crossword (Nat.iter m IqLen.fetch q) i);
    apply Z.leb_le; lia.
Qed.

End IqLenMore.

Lemma flush_has_nothing_witness :
  IqLen.wf (IqLen.mk 4 12 true) /\ 0 < isa.size (rv.cnop_at 0) /\
  IqLen.has (IqLen.flush (IqLen.mk 4 12 true)) (rv.cnop_at 0) = false.
Proof.
  assert (IqLen.wf (IqLen.mk 4 12 true)) as Hwf
    by (exists 2; split; [lia | reflexivity]).
  assert (0 < isa.size (rv.cnop_at 0)) as Hsize by reflexivity.
  split; [exact Hwf |]. split; [exact Hsize |].
  exact (@flush_has_nothing rv.decoder _ _ Hwf Hsize).
Defined.

Lemma jump_aligned_idempotent_witness :
  IqLen.wf (IqLen.mk 8 13 true) /\
  IqLen.len (IqLen.jump (IqLen.mk 8 13 true)) `mod` 8 = 0 /\
  IqLen.new_fetch (IqLen.jump (IqLen.mk 8 13 true)) = false /\
  IqLen.jump (IqLen.jump (IqLen.mk 8 13 true))
  = IqLen.jump (IqLen.mk 8 13 true).
Proof.
  assert (IqLen.wf (IqLen.mk 8 13 true)) as Hwf
    by (exists 3; split; [lia | reflexivity]).
  split; [exact Hwf |].
  exact (jump_aligned_idempotent (IqLen.mk 8 13 true) Hwf).
Defined.

Lemma remove_realigns_witness :
  IqLen.wf (IqLen.mk 8 16 true) /\
  (next_addr (rv.cnop_at 2)
   + IqLen.len (IqLen.remove (IqLen.mk 8 16 true) (rv.cnop_at 2)))
  `mod` 8 = 0.
Proof.
  assert (IqLen.wf (IqLen.mk 8 16 true)) as Hwf
    by (exists 3; split; [lia | reflexivity]).
  split; [exact Hwf |].
  exact (@remove_realigns rv.decoder (IqLen.mk 8 16 true) (rv.cnop_at 2) Hwf).
Defined.

Lemma fetches_make_available_witness :
  IqLen.wf (IqLen.mk 4 (-8) false) /\
  exists n, forall m, (n <= m)%nat ->
    IqLen.has (Nat.iter m IqLen.fetch (IqLen.mk 4 (-8) false))
              (rv.jal_at 2) = true.
Proof.
  assert (IqLen.wf (IqLen.mk 4 (-8) false)) as Hwf
    by (exists 2; split; [lia | reflexivity]).
  split; [exact Hwf |].
  exact (@fetches_make_available rv.decoder _ (rv.jal_at 2) Hwf).
Defined.

(** ** More on the branch history table *)

Section BhtMore.

Lemma bht_index_alias (b : Bht.t) (addr k : Z) :
  Bht._index b (addr + 2 * k * Z.of_nat (length (Bht.contents b)))
  = Bht._index b addr.
Proof.
  unfold Bht._index.
  destruct (Z.eqb_spec (Z.of_nat (length (Bht.contents b))) 0); [done |].
  rewrite !Z.shiftr_div_pow2 by lia. change (2 ^ 1) with 2.
  replace (addr + 2 * k * Z.of_nat (length (Bht.contents b)))
    with (addr + k * Z.of_nat (length (Bht.contents b)) * 2) by lia.
  rewrite Z.div_add by lia. by rewrite Z_mod_plus_full.
Qed.

Lemma bht_index_low_bit (b : Bht.t) (half : Z) :
  Bht._index b (2 * half + 1) = Bht._index b (2 * half).
Proof.
  unfold Bht._index.
  destruct (Z.eqb_spec (Z.of_nat (length (Bht.contents b))) 0); [done |].
  rewrite !Z.shiftr_div_pow2 by lia. change (2 ^ 1) with 2.
  do 3 f_equal.
  rewrite (Z.mul_comm 2 half), Z.div_add_l, Z.div_mul by lia.
  change (1 / 2) with 0. lia.
Qed.

Lemma bht_predict_by_index (b : Bht.t) (addr addr' : Z) :
  Bht._index b addr' = Bht._index b addr ->
  Bht.predict b addr' = Bht.predict b addr.
Proof. intros E. unfold Bht.predict. by rewrite E. Qed.

Lemma bht_init_counter (entries addr : Z) :
  0 < entries -> Bht.counter_at (Bht.init entries) addr = Ok 0.
Proof.
  intros Hentries. pose proof (bht_init_wf entries Hentries) as [Hne _].
  destruct (bht_index_ok _ addr Hne) as (index & Hindex & Hlt).
  unfold Bht.counter_at. rewrite Hindex. simpl in *.
  rewrite length_replicate in Hlt. by rewrite lookup_replicate_2.
Qed.

(** Two resolutions in a row, seen through the counter. *)
Lemma bht_resolve_twice (b : Bht.t) (addr : Z) (t1 t2 : bool) (c : Z) :
  Bht.wf b -> Bht.counter_at b addr = Ok c ->
  exists b1 b2,
    Bht.resolve b addr t1 = Ok b1 /\
    Bht.predict b1 addr = Ok (Some (2 <=? Bht.saturate t1 c)) /\
    Bht.resolve b1 addr t2 = Ok b2 /\
    Bht.predict b2 addr
    = Ok (Some (2 <=? Bht.saturate t2 (Bht.saturate t1 c))).
Proof.
  intros Hwf Hc.
  destruct (bht_resolve_counter b addr t1 Hwf)
    as (c0 & b1 & Hc0 & _ & Hres1 & Hc1 & Hp1 & Hwf1).
  rewrite Hc in Hc0. injection Hc0 as <-.
  destruct (bht_resolve_counter b1 addr t2 Hwf1)
    as (c1 & b2 & Hc1' & _ & Hres2 & _ & Hp2 & _).
  rewrite Hc1 in Hc1'. injection Hc1' as <-.
  by exists b1, b2.
Qed.

End BhtMore.

(** X6.  Aliasing: an address and the same address plus any multiple of
    twice the table size get the same prediction, and so do the two
    addresses of a pair that differ in their lowest bit only. *)
Theorem bht_predict_aliases (b : Bht.t) (addr k half : Z) :
  Bht.predict b (addr + 2 * k * Z.of_nat (length (Bht.contents b)))
  = Bht.predict b addr /\
  Bht.predict b (2 * half + 1) = Bht.predict b (2 * half).
Proof.
  split; apply bht_predict_by_index;
    [apply bht_index_alias | apply bht_index_low_bit].
Qed.

(** X7.  A resolution only touches its own slot: the prediction of an
    address of another slot is what it was. *)
Theorem bht_resolve_other_slot (b b' : Bht.t) (addr addr' : Z)
    (taken : bool) :
  Bht.wf b -> Bht._index b addr ≠ Bht._index b addr' ->
  Bht.resolve b addr taken = Ok b' ->
  Bht.predict b' addr' = Bht.predict b addr'.
Proof.
  intros Hwf Hother Hresolve.
  destruct (bht_resolve_slot b addr taken Hwf)
    as (index & entry & Hindex & Hentry & _ & Hresolve').
  rewrite Hresolve in Hresolve'. injection Hresolve' as ->.
  unfold Bht.predict.
  rewrite (bht_index_same_length b _ addr')
    by (simpl; apply length_insert).
  destruct (Bht._index b addr') as [index' | e] eqn:Hindex'; [| done].
  simpl. rewrite list_lookup_insert_ne; [done |]. congruence.
Qed.

Lemma bht_resolve_other_slot_witness :
  Bht.wf (Bht.init 128) /\
  Bht._index (Bht.init 128) 8 ≠ Bht._index (Bht.init 128) 12 /\
  exists b',
    Bht.resolve (Bht.init 128) 8 true = Ok b' /\
    Bht.predict b' 12 = Bht.predict (Bht.init 128) 12.
Proof.
  assert (Bht.wf (Bht.init 128)) as Hwf.
  { split; [discriminate |]. apply Forall_replicate. simpl. lia. }
  assert (Bht._index (Bht.init 128) 8 ≠ Bht._index (Bht.init 128) 12)
    as Hother by discriminate.
  split; [exact Hwf |]. split; [exact Hother |].
  eexists. split; [reflexivity |].
  exact (bht_resolve_other_slot (Bht.init 128) _ 8 12 true
           Hwf Hother eq_refl).
Defined.

(** X8.  Warm-up: on a fresh table one taken outcome trains the slot but
    still predicts not taken; the second one in a row predicts taken. *)
Theorem bht_warm_up (entries addr : Z) :
  0 < entries ->
  exists b1 b2,
    Bht.resolve (Bht.init entries) addr true = Ok b1 /\
    Bht.predict b1 addr = Ok (Some false) /\
    Bht.resolve b1 addr true = Ok b2 /\
    Bht.predict b2 addr = Ok (Some true).
Proof.
  intros Hentries.
  exact (bht_resolve_twice (Bht.init entries) addr true true 0
           (bht_init_wf entries Hentries)
           (bht_init_counter entries addr Hentries)).
Qed.

Lemma bht_warm_up_witness :
  0 < 128 /\
  exists b1 b2,
    Bht.resolve (Bht.init 128) 2147483652 true = Ok b1 /\
    Bht.predict b1 2147483652 = Ok (Some false) /\
    Bht.resolve b1 2147483652 true = Ok b2 /\
    Bht.predict b2 2147483652 = Ok (Some true).
Proof.
  assert (0 < 128) as Hentries by lia.
  split; [exact Hentries |].
  exact (bht_warm_up 128 2147483652 Hentries).
Defined.

(** X9.  Hysteresis: from a saturated counter one contrary outcome does
    not change the prediction, two in a row do. *)
Theorem bht_hysteresis (b : Bht.t) (addr : Z) (taken : bool) :
  Bht.wf b ->
  Bht.counter_at b addr = Ok (if taken then 3 else 0) ->
  exists b1 b2,
    Bht.resolve b addr (negb taken) = Ok b1 /\
    Bht.predict b1 addr = Ok (Some taken) /\
    Bht.resolve b1 addr (negb taken) = Ok b2 /\
    Bht.predict b2 addr = Ok (Some (negb taken)).
Proof.
  intros Hwf Hc.
  destruct (bht_resolve_twice b addr (negb taken) (negb taken) _ Hwf Hc)
    as (b1 & b2 & Hres1 & Hp1 & Hres2 & Hp2).
  exists b1, b2. by destruct taken.
Qed.

Lemma bht_hysteresis_witness :
  let b := {| Bht.contents := [ {| Bht.valid := true;
                                    Bht.sat_counter := 3 |} ] |} in
  Bht.wf b /\ Bht.counter_at b 6 = Ok 3 /\
  exists b1 b2,
    Bht.resolve b 6 false = Ok b1 /\
    Bht.predict b1 6 = Ok (Some true) /\
    Bht.resolve b1 6 false = Ok b2 /\
    Bht.predict b2 6 = Ok (Some false).
Proof.
  intros b.
  assert (Bht.wf b) as Hwf.
  { split; [discriminate |]. apply Forall_singleton. simpl. lia. }
  assert (Bht.counter_at b 6 = Ok 3) as Hc by reflexivity.
  split; [exact Hwf |]. split; [exact Hc |].
  exact (bht_hysteresis b 6 true Hwf Hc).
Defined.

(** X10.  A table built with no entry answers nothing: [predict] and
    [resolve] raise [ZeroDivisionError] on every address. *)
Theorem bht_empty_table_raises (entries addr : Z) (taken : bool) :
  entries <= 0 ->
  Bht.predict (Bht.init entries) addr = Raise ZeroDivisionError /\
  Bht.resolve (Bht.init entries) addr taken = Raise ZeroDivisionError.
Proof.
  intros Hentries. unfold Bht.predict, Bht.resolve, Bht._index, Bht.init.
  simpl. rewrite length_replicate.
  by replace (Z.to_nat entries) with O by lia.
Qed.

Lemma bht_empty_table_raises_witness :
  0 <= 0 /\
  Bht.predict (Bht.init 0) 2147483652 = Raise ZeroDivisionError /\
  Bht.resolve (Bht.init 0) 2147483652 true = Raise ZeroDivisionError.
Proof.
  assert (0 <= 0) as Hentries by lia.
  split; [exact Hentries |].
  exact (bht_empty_table_raises 0 2147483652 true Hentries).
Defined.

(** ** More on the return address stack *)

Section RasMore.

(** [drop] pops when it can: the test on the length only tells the two
    cases of the register apart. *)
Lemma ras_drop_closed_form (r : Ras.t) :
  Ras.drop r = {| Ras.depth := Ras.depth r;
                  Ras.stack := removelast (Ras.stack r);
                  Ras.last_dropped := last (Ras.stack r) |}.
Proof.
  unfold Ras.drop. destruct (Ras.stack r) as [| x s] eqn:Hs; [done |].
  simpl length. by destruct (Z.ltb_spec 0 (Z.of_nat (S (length s)))); [| lia].
Qed.

Lemma removelast_take {A : Type} (l : list A) :
  removelast l = take (length l - 1) l.
Proof.
  destruct l as [| x l] using rev_ind; [done |].
  rewrite removelast_last, length_app. simpl.
  replace (length l + 1 - 1)%nat with (length l) by lia.
  by rewrite take_app_length.
Qed.

Lemma reverse_removelast_lookup {A : Type} (l : list A) (k : nat) :
  reverse (removelast l) !! k = reverse l !! S k.
Proof.
  destruct l as [| x l] using rev_ind; [done |].
  by rewrite removelast_last, reverse_snoc.
Qed.

Lemma last_reverse_head {A : Type} (l : list A) :
  last l = reverse l !! O.
Proof.
  destruct l as [| x l] using rev_ind; [done |].
  by rewrite last_snoc, reverse_snoc.
Qed.

End RasMore.

(** X11.  Push then drop: the register holds the pushed address, and the
    stack is what it was when there was room, or has lost its oldest entry
    when it was full.  (With a capacity of 0 the push is forgotten: see
    C6.) *)
Theorem ras_push_then_drop (r : Ras.t) (addr : Z) :
  1 <= Ras.depth r ->
  Z.of_nat (length (Ras.stack r)) <= Ras.depth r ->
  Ras.drop (Ras.push r addr) =
  {| Ras.depth := Ras.depth r;
     Ras.stack := if Z.of_nat (length (Ras.stack r)) <? Ras.depth r
                  then Ras.stack r else tail (Ras.stack r);
     Ras.last_dropped := Some addr |}.
Proof.
  intros Hdepth Hlen. rewrite ras_drop_closed_form.
  unfold Ras.push. simpl. rewrite length_app. simpl.
  destruct (Z.ltb_spec (Ras.depth r)
              (Z.of_nat (length (Ras.stack r) + 1))) as [Hfull | Hroom].
  - destruct (Z.ltb_spec (Z.of_nat (length (Ras.stack r))) (Ras.depth r));
      [lia |].
    destruct (Ras.stack r) as [| x s]; [simpl in *; lia |].
    simpl tail. by rewrite removelast_last, last_snoc.
  - destruct (Z.ltb_spec (Z.of_nat (length (Ras.stack r))) (Ras.depth r));
      [| lia].
    by rewrite removelast_last, last_snoc.
Qed.

Lemma ras_push_then_drop_witness :
  let r := Ras.run (Ras.init 3) [Ras.Push 10; Ras.Push 20] in
  1 <= Ras.depth r /\ Z.of_nat (length (Ras.stack r)) <= Ras.depth r /\
  Ras.drop (Ras.push r 30) =
  {| Ras.depth := 2; Ras.stack := [20]; Ras.last_dropped := Some 30 |}.
Proof.
  intros r.
  assert (1 <= Ras.depth r) as Hdepth by (simpl; lia).
  assert (Z.of_nat (length (Ras.stack r)) <= Ras.depth r) as Hlen
    by (simpl; lia).
  split; [exact Hdepth |]. split; [exact Hlen |].
  exact (ras_push_then_drop r 30 Hdepth Hlen).
Defined.

(** X12.  Drops in a row pop one entry each, newest first: after [k + 1]
    drops the stack has lost its [k + 1] newest entries and the register
    holds the one that was [k] below the top, or none when the stack held
    [k] entries at most. *)
Theorem ras_drops_in_a_row (k : nat) :
  forall r,
    Ras.stack (Ras.run r (replicate (S k) Ras.Drop))
    = take (length (Ras.stack r) - S k) (Ras.stack r) /\
    Ras.last_dropped (Ras.run r (replicate (S k) Ras.Drop))
    = reverse (Ras.stack r) !! k.
Proof.
  induction k as [| k IH]; intros r.
  - simpl. rewrite ras_drop_closed_form. simpl.
    split; [apply removelast_take | apply last_reverse_head].
  - change (Ras.run r (replicate (S (S k)) Ras.Drop))
      with (Ras.run (Ras.drop r) (replicate (S k) Ras.Drop)).
    destruct (IH (Ras.drop r)) as [Hstack Hreg].
    rewrite Hstack, Hreg, ras_drop_closed_form. simpl.
    split; [| apply reverse_removelast_lookup].
    rewrite removelast_take, length_take, take_take. f_equal. lia.
Qed.

Section RasResolve.
Context `{isa.Instr} `{fields.Decode}.

(** X13.  An instruction that is both a return and a call swaps the top:
    the drop comes first, so the register holds the old top and the new
    return address takes its place. *)
Theorem ras_resolve_ret_and_call (r : Ras.t) (instr : Instruction)
    (s : list Z) (top : Z) :
  is_ret instr = true -> is_call instr = true ->
  Ras.stack r = s ++ [top] ->
  Z.of_nat (length (Ras.stack r)) <= Ras.depth r ->
  Ras.read (Ras_resolve r instr) = Some top /\
  Ras.stack (Ras_resolve r instr) = s ++ [next_addr instr].
Proof.
  intros Hret Hcall Hstack Hlen. unfold Ras_resolve.
  rewrite Hret, Hcall, (ras_drop_snoc r s top Hstack).
  rewrite Hstack, length_app in Hlen. simpl in Hlen.
  split; [done |]. unfold Ras.push. simpl. rewrite length_app. simpl.
  by destruct (Z.ltb_spec (Ras.depth r) (Z.of_nat (length s + 1))); [lia |].
Qed.

(** X14.  [resolve] keeps the stack within its capacity. *)
Theorem ras_resolve_capacity (r : Ras.t) (instr : Instruction) :
  0 <= Ras.depth r ->
  Z.of_nat (length (Ras.stack r)) <= Ras.depth r ->
  Z.of_nat (length (Ras.stack (Ras_resolve r instr))) <= Ras.depth r /\
  Ras.depth (Ras_resolve r instr) = Ras.depth r.
Proof.
  intros Hdepth Hlen. unfold Ras_resolve.
  set (r1 := if is_ret instr then Ras.drop r else r).
  assert (Ras.depth r1 = Ras.depth r) as Hdepth1.
  { unfold r1. destruct (is_ret instr); [| done].
    by rewrite ras_drop_closed_form. }
  assert (length (Ras.stack r1) <= Z.to_nat (Ras.depth r))%nat as Hlen1.
  { unfold r1. destruct (is_ret instr); [| lia].
    pose proof (ras_drop_length r). lia. }
  destruct (is_call instr); [| split; [lia | done]].
  pose proof (ras_push_length r1 (next_addr instr)) as Hpush.
  rewrite Hdepth1 in Hpush. split; [| done].
  specialize (Hpush Hdepth Hlen1). lia.
Qed.

End RasResolve.

#[global] Existing Instance rvf.decoder.

Lemma ras_resolve_ret_and_call_witness :
  let r := Ras.run (Ras.init 3) [Ras.Push 10; Ras.Push 20] in
  let instr := rvf.jalr_ra_t0 64 in
  is_ret instr = true /\ is_call instr = true /\
  Ras.read (Ras_resolve r instr) = Some 20 /\
  Ras.stack (Ras_resolve r instr) = [10] ++ [next_addr instr].
Proof.
  intros r instr.
  assert (is_ret instr = true) as Hret by reflexivity.
  assert (is_call instr = true) as Hcall by reflexivity.
  split; [exact Hret |]. split; [exact Hcall |].
  refine (@ras_resolve_ret_and_call rv.decoder rvf.decoder r instr
            [10] 20 Hret Hcall eq_refl _).
  simpl. lia.
Defined.

Lemma ras_resolve_capacity_witness :
  let r := Ras.run (Ras.init 2) [Ras.Push 10] in
  0 <= Ras.depth r /\ Z.of_nat (length (Ras.stack r)) <= Ras.depth r /\
  Z.of_nat (length (Ras.stack (Ras_resolve r (rvf.jalr_ra_t0 64))))
  <= Ras.depth r /\
  Ras.depth (Ras_resolve r (rvf.jalr_ra_t0 64)) = Ras.depth r.
Proof.
  intros r.
  assert (0 <= Ras.depth r) as Hdepth by (simpl; lia).
  assert (Z.of_nat (length (Ras.stack r)) <= Ras.depth r) as Hlen
    by (simpl; lia).
  split; [exact Hdepth |]. split; [exact Hlen |].
  exact (@ras_resolve_capacity rv.decoder rvf.decoder r
           (rvf.jalr_ra_t0 64) Hdepth Hlen).
Defined.

(** ** More on the functional units *)

Ltac fus_flags f :=
  destruct f as [[] [] [] [] [] [] [] []].

(** X15.  [issue] raises exactly when the unit is ALU and ALU is not
    ready: the other units are taken without a check, even when busy, and
    a ready unit is always granted. *)
Theorem fus_issue_raises_iff (f : FusBusy.t) (fu : Fu) :
  (FusBusy.issue f fu = Raise AssertionError <->
   fu = ALU /\ FusBusy.is_ready f ALU = false) /\
  (forall e, FusBusy.issue f fu = Raise e -> e = AssertionError) /\
  (FusBusy.is_ready f fu = true -> exists f', FusBusy.issue f fu = Ok f').
Proof.
  split; [| split].
  - split.
    + destruct fu; try discriminate. intros Hraise. split; [done |].
      revert Hraise. by fus_flags f.
    + intros [-> Hbusy]. revert Hbusy. by fus_flags f.
  - intros e. destruct fu; try discriminate.
    fus_flags f; cbv; congruence.
  - destruct fu; try (intros _; eexists; reflexivity).
    fus_flags f; cbv; try discriminate; intros _; eexists; reflexivity.
Qed.

Lemma fus_issue_raises_iff_witness :
  let f := {| FusBusy.has_alu2 := false; FusBusy.alu := true;
              FusBusy.mul := false; FusBusy.branch := true;
              FusBusy.ldu := false; FusBusy.stu := false;
              FusBusy.alu2 := false; FusBusy.issued_mul := false |} in
  FusBusy.is_ready f ALU = false /\
  FusBusy.issue f ALU = Raise AssertionError.
Proof.
  intros f.
  assert (FusBusy.is_ready f ALU = false) as Hbusy by reflexivity.
  split; [exact Hbusy |].
  exact (proj2 (proj1 (fus_issue_raises_iff f ALU)) (conj eq_refl Hbusy)).
Defined.

(** X16.  A granted unit is taken for the rest of the cycle; ALU is
    granted twice at most (once without the second unit), so a third ALU
    issue in a row always raises. *)
Theorem fus_issue_takes_unit (f f1 : FusBusy.t) (fu : Fu) :
  FusBusy.issue f fu = Ok f1 ->
  (fu ≠ ALU -> FusBusy.is_ready f1 fu = false) /\
  (fu = ALU -> FusBusy.has_alu2 f = false ->
   FusBusy.is_ready f1 ALU = false) /\
  (fu = ALU -> forall f2,
     FusBusy.issue f1 ALU = Ok f2 ->
     FusBusy.is_ready f2 ALU = false /\
     FusBusy.issue f2 ALU = Raise AssertionError).
Proof.
  intros Hissue. split; [| split].
  - intros Hfu. destruct fu; [done | | | |];
      simpl in Hissue; injection Hissue as <-; reflexivity.
  - intros -> Hno. revert Hissue Hno. fus_flags f; cbv;
      try discriminate; by intros [= <-].
  - intros -> f2. revert Hissue. fus_flags f; cbv; try discriminate;
      intros [= <-]; cbv; try discriminate; by intros [= <-].
Qed.

Lemma fus_issue_takes_unit_witness :
  exists f1 f2,
    FusBusy.issue (FusBusy.init true) ALU = Ok f1 /\
    FusBusy.issue f1 ALU = Ok f2 /\
    FusBusy.is_ready f2 ALU = false /\
    FusBusy.issue f2 ALU = Raise AssertionError.
Proof.
  eexists _, _.
  assert (FusBusy.issue (FusBusy.init true) ALU = Ok _) as H1
    by reflexivity.
  assert (FusBusy.issue
            {| FusBusy.has_alu2 := true; FusBusy.alu := false;
               FusBusy.mul := false; FusBusy.branch := false;
               FusBusy.ldu := false; FusBusy.stu := false;
               FusBusy.alu2 := true; FusBusy.issued_mul := false |} ALU
          = Ok _) as H2 by reflexivity.
  split; [exact H1 |]. split; [exact H2 |].
  exact (proj2 (proj2 (fus_issue_takes_unit _ _ ALU H1)) eq_refl _ H2).
Defined.

(** X17.  Shared ports: a load and a store exclude each other; a branch
    blocks the stores, and ALU unless the second unit is ready; an ALU
    issue served by the first unit blocks the branches; a multiplication
    leaves the other units as they are for the cycle. *)
Theorem fus_structural_hazards (f f1 : FusBusy.t) :
  (FusBusy.issue f LDU = Ok f1 ->
   FusBusy.is_ready f1 LDU = false /\ FusBusy.is_ready f1 STU = false) /\
  (FusBusy.issue f STU = Ok f1 ->
   FusBusy.is_ready f1 LDU = false /\ FusBusy.is_ready f1 STU = false) /\
  (FusBusy.issue f BRANCH = Ok f1 ->
   FusBusy.is_ready f1 BRANCH = false /\
   FusBusy.is_ready f1 STU = false /\
   FusBusy.is_ready f1 ALU = FusBusy._alu2_ready f) /\
  (FusBusy.issue f ALU = Ok f1 -> FusBusy._alu2_ready f = false ->
   FusBusy.is_ready f1 BRANCH = false) /\
  (FusBusy.issue f MUL = Ok f1 ->
   forall fu, fu ≠ MUL -> FusBusy.is_ready f1 fu = FusBusy.is_ready f fu).
Proof.
  split; [| split; [| split; [| split]]].
  - by intros [= <-].
  - by intros [= <-].
  - intros [= <-]. repeat split. simpl. unfold FusBusy._alu2_ready.
    simpl. by rewrite orb_false_r.
  - simpl. unfold FusBusy.issue_alu. intros Hissue Hready.
    rewrite Hready in Hissue. simpl in Hissue.
    destruct (FusBusy.alu f); [done |]. by injection Hissue as <-.
  - intros [= <-] fu Hfu. by destruct fu.
Qed.

Lemma fus_structural_hazards_witness :
  exists f1,
    FusBusy.issue (FusBusy.init true) LDU = Ok f1 /\
    FusBusy.is_ready f1 LDU = false /\ FusBusy.is_ready f1 STU = false.
Proof.
  eexists.
  assert (FusBusy.issue (FusBusy.init true) LDU = Ok _) as H1
    by reflexivity.
  split; [exact H1 |].
  exact (proj1 (fus_structural_hazards (FusBusy.init true) _) H1).
Defined.

(** X18.  [cycle] frees every unit, except that a multiplication issued in
    the cycle keeps ALU and BRANCH busy during the next one (ALU stays
    available through the second unit); a further cycle frees them. *)
Theorem fus_cycle_write_back (f : FusBusy.t) :
  (FusBusy.issued_mul f = false -> FusBusy.all_free (FusBusy.cycle f)) /\
  (forall f1, FusBusy.issue f MUL = Ok f1 ->
     FusBusy.is_ready (FusBusy.cycle f1) BRANCH = false /\
     FusBusy.is_ready (FusBusy.cycle f1) ALU = FusBusy.has_alu2 f /\
     FusBusy.is_ready (FusBusy.cycle f1) MUL = true /\
     FusBusy.is_ready (FusBusy.cycle f1) LDU = true /\
     FusBusy.is_ready (FusBusy.cycle f1) STU = true) /\
  FusBusy.all_free (FusBusy.cycle (FusBusy.cycle f)) /\
  FusBusy.has_alu2 (FusBusy.cycle f) = FusBusy.has_alu2 f.
Proof.
  split; [| split; [| split]].
  - intros Hno. unfold FusBusy.all_free. simpl. by rewrite Hno.
  - intros f1 [= <-]. simpl. unfold FusBusy._alu2_ready. simpl.
    by rewrite andb_true_r, orb_false_r.
  - by unfold FusBusy.all_free.
  - done.
Qed.

Lemma fus_cycle_write_back_witness :
  FusBusy.issued_mul (FusBusy.init false) = false /\
  FusBusy.all_free (FusBusy.cycle (FusBusy.init false)).
Proof.
  assert (FusBusy.issued_mul (FusBusy.init false) = false) as Hno
    by reflexivity.
  split; [exact Hno |].
  exact (proj1 (fus_cycle_write_back (FusBusy.init false)) Hno).
Defined.

(** X19.  Within a cycle readiness never comes back: a unit that is ready
    after an issue was ready before it. *)
Theorem fus_issue_monotone (f f1 : FusBusy.t) (fu unit : Fu) :
  FusBusy.issue f fu = Ok f1 ->
  FusBusy.is_ready f1 unit = true -> FusBusy.is_ready f unit = true.
Proof.
  destruct fu; fus_flags f; cbv; try discriminate; intros [= <-];
    by destruct unit.
Qed.

Lemma fus_issue_monotone_witness :
  exists f1,
    FusBusy.issue (FusBusy.init true) BRANCH = Ok f1 /\
    FusBusy.is_ready f1 ALU = true /\
    FusBusy.is_ready (FusBusy.init true) ALU = true.
Proof.
  eexists.
  assert (FusBusy.issue (FusBusy.init true) BRANCH = Ok _) as H1
    by reflexivity.
  assert (FusBusy.is_ready
            {| FusBusy.has_alu2 := true; FusBusy.alu := true;
               FusBusy.mul := false; FusBusy.branch := true;
               FusBusy.ldu := false; FusBusy.stu := true;
               FusBusy.alu2 := false; FusBusy.issued_mul := false |} ALU
          = true) as H2 by reflexivity.
  split; [exact H1 |]. split; [exact H2 |].
  exact (fus_issue_monotone _ _ BRANCH ALU H1 H2).
Defined.

(** ** More on the timed part and the statistics *)

Section TimedPartMore.

Lemma filter_loop_sound (l : list Instruction) :
  forall accepting,
    Forall (fun i => is_marker i = false) (filter_loop l accepting []) /\
    filter_loop l accepting [] `sublist_of` l.
Proof.
  induction l as [| instr l IH]; intros accepting; simpl.
  - split; [done | constructor].
  - destruct (is_marker instr) eqn:Hm.
    + destruct (IH (negb accepting)) as [Hall Hsub].
      split; [done | by apply sublist_cons].
    + destruct accepting.
      * rewrite filter_loop_app. destruct (IH true) as [Hall Hsub].
        split; [by apply Forall_cons | by apply sublist_skip].
      * destruct (IH false) as [Hall Hsub].
        split; [done | by apply sublist_cons].
Qed.

End TimedPartMore.

(** X20.  The timed part holds no marker and is a subsequence of the
    trace: nothing is added, duplicated or reordered; filtering it again
    leaves nothing. *)
Theorem filter_timed_part_sound (l : list Instruction) :
  Forall (fun i => is_marker i = false) (filter_timed_part l) /\
  filter_timed_part l `sublist_of` l /\
  filter_timed_part (filter_timed_part l) = [].
Proof.
  destruct (filter_loop_sound l false) as [Hall Hsub].
  split; [done |]. split; [done |].
  unfold filter_timed_part at 1.
  by rewrite filter_loop_outside, after_marker_none.
Qed.



(** X22.  When [main] ends without an exception the trace held a marker
    and its timed part two instructions at least. *)
Theorem main_success_needs_region (instr_queue : list Instruction)
    (input_file : string) :
  (main instr_queue input_file).2 = None ->
  (1 <= markers instr_queue)%nat /\
  (2 <= length (filter_timed_part instr_queue))%nat.
Proof.
  intros Hok. split.
  - destruct (markers instr_queue) eqn:Hnone; [| lia].
    by rewrite (main_no_marker _ input_file Hnone) in Hok.
  - unfold main in Hok.
    destruct (filter_timed_part instr_queue) as [| i [| j l]]; simpl; [| | lia].
    + by rewrite print_stats_empty in Hok.
    + by rewrite print_stats_single in Hok.
Qed.

Lemma main_success_needs_region_witness :
  let trace := [rv.marker_at 0 1; rv.addi_at 4 2; rv.addi_at 8 5;
                rv.marker_at 12 6] in
  (main trace "t").2 = None /\
  (1 <= markers trace)%nat /\ (2 <= length (filter_timed_part trace))%nat.
Proof.
  intros trace.
  assert ((main trace "t").2 = None) as Hok by reflexivity.
  split; [exact Hok |].
  exact (main_success_needs_region trace "t" Hok).
Defined.

(** ** More on the comparison of two traces *)

Section DeltasMore.

Lemma compute_deltas_cons (a b : Z) (l : list Z) :
  compute_accuracy.compute_deltas (a :: b :: l)
  = (b - a) :: compute_accuracy.compute_deltas (b :: l).
Proof.
  unfold compute_accuracy.compute_deltas. simpl length.
  replace (S (S (length l)) - 1)%nat with (S (length l)) by lia.
  replace (S (length l) - 1)%nat with (length l) by lia.
  simpl seq. simpl map at 1. f_equal.
  rewrite <- seq_shift, map_map. apply map_ext. intros i.
  by replace (S i + 1)%nat with (S (i + 1)) by lia.
Qed.

Lemma last_cons_default {A : Type} (l : list A) :
  forall x d, List.last (x :: l) d = List.last l x.
Proof.
  induction l as [| c l IH]; intros x d; [done |].
  change (List.last (x :: c :: l) d) with (List.last (c :: l) d).
  by rewrite !IH.
Qed.

Lemma compare_deltas_zip_self (d : list Z) :
  filter (fun p : Z * Z => p.1 = p.2) (zip d d) = zip d d.
Proof.
  induction d as [| x d IH]; [done |].
  simpl. rewrite filter_cons_True by done. by rewrite IH.
Qed.

End DeltasMore.

(** X23.  The deltas of a list of cycles are one fewer than the cycles,
    and they add up to the difference between the last and the first
    cycle. *)
Theorem compute_deltas_telescope (first : Z) (rest : list Z) :
  length (compute_accuracy.compute_deltas (first :: rest)) = length rest /\
  foldr Z.add 0 (compute_accuracy.compute_deltas (first :: rest))
  = List.last rest first - first.
Proof.
  revert first. induction rest as [| b rest IH]; intros first.
  - unfold compute_accuracy.compute_deltas. simpl. split; [done | lia].
  - rewrite compute_deltas_cons. destruct (IH b) as [Hlen Hsum].
    split; [simpl; by rewrite Hlen |].
    simpl foldr. rewrite Hsum.
    rewrite last_cons_default. lia.
Qed.

(** X24.  [compare_deltas] counts at most as many matches as the shorter
    list has deltas, does not depend on the order of its arguments, and a
    list matches itself everywhere: a trace compared with itself reports
    every delta as matching. *)
Theorem compare_deltas_bounds (deltas1 deltas2 cycles : list Z) :
  0 <= compute_accuracy.compare_deltas deltas1 deltas2
    <= Z.of_nat (Nat.min (length deltas1) (length deltas2)) /\
  compute_accuracy.compare_deltas deltas1 deltas2
  = compute_accuracy.compare_deltas deltas2 deltas1 /\
  compute_accuracy.compare_deltas deltas1 deltas1
  = Z.of_nat (length deltas1) /\
  ((2 <= length cycles)%nat ->
   compute_accuracy.main cycles cycles
   = compute_accuracy.MatchingDeltaCount (Z.of_nat (length cycles) - 1)).
Proof.
  unfold compute_accuracy.compare_deltas.
  split; [| split; [| split]].
  - pose proof (length_filter (fun p : Z * Z => p.1 = p.2)
                  (zip deltas1 deltas2)) as Hle.
    rewrite length_zip_with in Hle. lia.
  - f_equal. revert deltas2.
    induction deltas1 as [| x d1 IH]; intros [| y d2]; try done.
    simpl. rewrite !filter_cons. simpl.
    destruct (decide (x = y)) as [-> | Hne].
    + rewrite decide_True by done. simpl. by rewrite IH.
    + rewrite decide_False by done. apply IH.
  - rewrite compare_deltas_zip_self, length_zip_with. f_equal. lia.
  - intros Hlen. unfold compute_accuracy.main.
    destruct (Z.ltb_spec (Z.of_nat (length cycles)) 2); [lia |]. simpl.
    unfold compute_accuracy.compare_deltas.
    rewrite compare_deltas_zip_self, length_zip_with. f_equal.
    destruct cycles as [| first rest]; [simpl in Hlen; lia |].
    destruct (compute_deltas_telescope first rest) as [-> _].
    simpl. lia.
Qed.

Lemma compare_deltas_bounds_witness :
  (2 <= length [100; 103; 104])%nat /\
  compute_accuracy.main [100; 103; 104] [100; 103; 104]
  = compute_accuracy.MatchingDeltaCount 2.
Proof.
  assert (2 <= length [100; 103; 104])%nat as Hlen by (simpl; lia).
  split; [exact Hlen |].
  exact (proj2 (proj2 (proj2
           (compare_deltas_bounds [] [] [100; 103; 104]))) Hlen).
Defined.

(** ** The cycles between two markers *)

Section ParseFacts.
Variable cycle_of : string -> option Z.
Variable marker : string.

(** Before the first marker nothing is collected. *)
Lemma parse_loop_idle (lines : list string) :
  Forall (trace_cycles.plain marker) lines ->
  forall prev marker_count cycles,
    trace_cycles.parse_loop cycle_of marker lines prev false marker_count
                            cycles
    = Some cycles.
Proof.
  intros Hlines. induction Hlines as [| line lines Hline Hlines IH];
    intros prev marker_count cycles; simpl; [done |].
  unfold trace_cycles.plain in Hline. rewrite Hline. apply IH.
Qed.

(** The first marker, met after plain lines, opens the region and is
    itself collected. *)
Lemma parse_loop_open (m1 : string) (tl : list string)
    (pre : list string) :
  str_in marker m1 = true ->
  Forall (trace_cycles.plain marker) pre ->
  forall prev,
    str_in marker (List.last pre prev) = false ->
    trace_cycles.parse_loop cycle_of marker (pre ++ m1 :: tl) (Some prev)
                            false 0 []
    = trace_cycles.parse_loop cycle_of marker tl (Some m1) true 1
        (trace_cycles.collect cycle_of true [] m1).
Proof.
  intros Hm1 Hpre. induction Hpre as [| line pre Hline Hpre IH];
    intros prev Hprev; simpl.
  - simpl in Hprev. by rewrite Hm1, Hprev.
  - unfold trace_cycles.plain in Hline. rewrite Hline. apply IH.
    by rewrite last_cons_default in Hprev.
Qed.

(** The second marker, met after plain lines, is collected and ends the
    loop. *)
Lemma parse_loop_close (m2 : string) (rest : list string)
    (body : list string) :
  str_in marker m2 = true ->
  Forall (trace_cycles.plain marker) body ->
  forall prev cycles,
    str_in marker (List.last body prev) = false ->
    trace_cycles.parse_loop cycle_of marker (body ++ m2 :: rest) (Some prev)
                            true 1 cycles
    = Some (trace_cycles.append_cycle cycle_of
              (foldl (trace_cycles.collect cycle_of true) cycles body) m2).
Proof.
  intros Hm2 Hbody. induction Hbody as [| line body Hline Hbody IH];
    intros prev cycles Hprev; simpl.
  - simpl in Hprev. by rewrite Hm2, Hprev.
  - unfold trace_cycles.plain in Hline. rewrite Hline. apply IH.
    by rewrite last_cons_default in Hprev.
Qed.

Lemma last_of_plain (body : list string) (prev : string) :
  Forall (trace_cycles.plain marker) body -> body ≠ [] ->
  str_in marker (List.last body prev) = false.
Proof.
  intros Hbody Hne.
  destruct body as [| line body] using rev_ind; [done |].
  rewrite last_last. apply Forall_app in Hbody as [_ Hline].
  exact (proj1 (Forall_singleton (trace_cycles.plain marker) line) Hline).
Qed.

(** X25.  A trace whose first line holds the marker cannot be parsed: the
    previous line is read before any was seen, and the exception ends
    [main] as well. *)
Theorem parse_marker_on_first_line_raises (line : string)
    (rest lines2 : list string) :
  str_in marker line = true ->
  trace_cycles.parse_trace_cycles_between_markers cycle_of (line :: rest)
                                                  marker = None /\
  trace_cycles.main cycle_of (line :: rest) lines2 marker = None.
Proof.
  intros Hline.
  assert (trace_cycles.parse_trace_cycles_between_markers
            cycle_of (line :: rest) marker = None) as Hparse.
  { unfold trace_cycles.parse_trace_cycles_between_markers. simpl.
    by rewrite Hline. }
  split; [done |]. unfold trace_cycles.main. by rewrite Hparse.
Qed.

(** X26.  A trace without any marker yields no cycle, and [main] then
    reports that there are not enough instructions, whatever the other
    trace gives. *)
Theorem parse_without_marker (lines1 lines2 : list string)
    (cycles2 : list Z) :
  Forall (trace_cycles.plain marker) lines1 ->
  trace_cycles.parse_trace_cycles_between_markers cycle_of lines2 marker
  = Some cycles2 ->
  trace_cycles.parse_trace_cycles_between_markers cycle_of lines1 marker
  = Some [] /\
  trace_cycles.main cycle_of lines1 lines2 marker
  = Some compute_accuracy.NotEnoughInstructions /\
  trace_cycles.main cycle_of lines2 lines1 marker
  = Some compute_accuracy.NotEnoughInstructions.
Proof.
  intros Hplain Hparse2.
  assert (trace_cycles.parse_trace_cycles_between_markers
            cycle_of lines1 marker = Some []) as Hparse1
    by (by apply parse_loop_idle).
  split; [done |]. unfold trace_cycles.main.
  rewrite Hparse1, Hparse2.
  split; f_equal; apply compute_accuracy_main_guard; simpl; lia.
Qed.

(** X27.  On a trace made of plain lines, a marker line, a region of plain
    lines, a second marker line and anything after it, the cycles are
    those of the first marker line and of the region, then that of the
    second marker line: both marker lines are counted in, what precedes
    and what follows is left out. *)
Theorem parse_region_includes_markers (p m1 m2 : string)
    (pre body rest : list string) :
  Forall (trace_cycles.plain marker) (p :: pre) ->
  str_in marker m1 = true ->
  Forall (trace_cycles.plain marker) body -> body ≠ [] ->
  str_in marker m2 = true ->
  trace_cycles.parse_trace_cycles_between_markers
    cycle_of (p :: pre ++ m1 :: body ++ m2 :: rest) marker
  = Some (trace_cycles.append_cycle cycle_of
            (trace_cycles.cycles_of cycle_of (m1 :: body)) m2).
Proof.
  intros Hpre Hm1 Hbody Hne Hm2.
  apply Forall_cons in Hpre as [Hp Hpre].
  unfold trace_cycles.parse_trace_cycles_between_markers. simpl.
  unfold trace_cycles.plain in Hp. rewrite Hp.
  rewrite (parse_loop_open m1 _ pre Hm1 Hpre).
  - by rewrite (parse_loop_close m2 rest body Hm2 Hbody m1 _
                  (last_of_plain body m1 Hbody Hne)).
  - destruct pre as [| x pre']; [done |].
    by apply last_of_plain.
Qed.

End ParseFacts.

Lemma parse_marker_on_first_line_raises_witness :
  str_in "0x32951073" "core 0: 0x80000000 (0x32951073) @ 10 csrw" = true /\
  trace_cycles.parse_trace_cycles_between_markers
    (fun _ => Some 10) ["core 0: 0x80000000 (0x32951073) @ 10 csrw"]
    "0x32951073" = None.
Proof.
  assert (str_in "0x32951073" "core 0: 0x80000000 (0x32951073) @ 10 csrw"
          = true) as Hline by reflexivity.
  split; [exact Hline |].
  exact (proj1 (parse_marker_on_first_line_raises
                  (fun _ => Some 10) "0x32951073" _ [] [] Hline)).
Defined.

Lemma parse_without_marker_witness :
  Forall (fun line => str_in "0x32951073" line = false)
         ["(0x00150513) @ 5 addi"] /\
  trace_cycles.main (fun _ => Some 5) ["(0x00150513) @ 5 addi"] []
                    "0x32951073"
  = Some compute_accuracy.NotEnoughInstructions.
Proof.
  assert (Forall (fun line => str_in "0x32951073" line = false)
                 ["(0x00150513) @ 5 addi"]) as Hplain
    by (apply Forall_singleton; reflexivity).
  split; [exact Hplain |].
  exact (proj1 (proj2 (parse_without_marker (fun _ => Some 5) "0x32951073"
                         ["(0x00150513) @ 5 addi"] [] [] Hplain eq_refl))).
Defined.

Lemma parse_region_includes_markers_witness :
  let cycle_of := fun line =>
    if String.eqb line "(0x32951073) @ 10" then Some 10
    else if String.eqb line "(0x00150513) @ 11" then Some 11
    else if String.eqb line "(0x32951073) @ 12" then Some 12
    else None in
  trace_cycles.parse_trace_cycles_between_markers cycle_of
    ("(0x00000013) @ 9" :: [] ++ "(0x32951073) @ 10"
     :: ["(0x00150513) @ 11"] ++ "(0x32951073) @ 12"
     :: ["(0x00000013) @ 13"]) "0x32951073"
  = Some [10; 11; 12].
Proof.
  intros cycle_of.
  refine (parse_region_includes_markers cycle_of "0x32951073"
            "(0x00000013) @ 9" "(0x32951073) @ 10" "(0x32951073) @ 12"
            [] ["(0x00150513) @ 11"] ["(0x00000013) @ 13"] _ eq_refl _ _
            eq_refl).
  - apply Forall_singleton. reflexivity.
  - apply Forall_singleton. reflexivity.
  - discriminate.
Defined.

(** ** [print_data] *)

Section PrintData.



End PrintData.

